(** * deploy-561: the response decomposer and the credential store

    Two Python modules are embedded here.

    - [app_streamlit.get_ai_decomposition] parses the text of a chat
      completion into a block of steps and an encouragement, with three
      regular expressions of the [re] module.  Python strings are
      sequences of code points, so a string is a [list N]; the [re]
      calls are run by a backtracking matcher that tries alternatives in
      the order Python does, and the patterns are written as syntax
      trees, token by token as they stand in the source.

    - [auth] keeps user records in one SQLite table.  The table, the
      connection count and the storage failures are an explicit state
      that every operation threads; a Python exception is a result of
      the monad and [try/except] is [try_except].  The UTF-8 codec and
      bcrypt are parameters; each of their calls may raise.

    The modules [Py], [Re], [Decomposer] and [Auth] are the program;
    [PyFacts], [ReFacts], [DecomposerFacts] and [AuthFacts] hold what is
    proved about it. *)

From Stdlib Require Import NArith ZArith Lia List Bool Ascii String.
From stdpp Require Import gmap strings list.
Import ListNotations.

Local Open Scope N_scope.
Local Open Scope list_scope.

(** ** Python strings *)

Module Py.

(** A [str] is a sequence of Unicode code points. *)
Definition str := list N.

(** Code point of an ASCII character, and of an ASCII literal. *)
Definition ch (a : ascii) : N := N_of_ascii a.

Definition lit (s : string) : str := List.map ch (list_ascii_of_string s).

Definition NL : N := 10.

(** [Py_UNICODE_ISSPACE]: the test behind [str.strip], [str.isspace] and
    the class [\s] of a [str] pattern. *)
Definition is_space (c : N) : bool :=
  ((9 <=? c) && (c <=? 13)) || ((28 <=? c) && (c <=? 32))
  || (c =? 133) || (c =? 160) || (c =? 5760)
  || ((8192 <=? c) && (c <=? 8202))
  || (c =? 8232) || (c =? 8233) || (c =? 8239) || (c =? 8287)
  || (c =? 12288).

Fixpoint lstrip (s : str) : str :=
  match s with
  | c :: s' => if is_space c then lstrip s' else s
  | [] => []
  end.

Definition rstrip (s : str) : str := rev (lstrip (rev s)).

(** [s.strip()] *)
Definition strip (s : str) : str := rstrip (lstrip s).

(** [sep.join(l)] *)
Fixpoint join (sep : str) (l : list str) : str :=
  match l with
  | [] => []
  | [x] => x
  | x :: l' => x ++ sep ++ join sep l'
  end.

(** Truth value of a string: [if p.strip()] *)
Definition truthy (s : str) : bool :=
  match s with [] => false | _ :: _ => true end.

End Py.

(** ** The [re] module: patterns and the backtracking matcher *)

Module Re.
Import Py.

(** One member of a character class. *)
Inductive item : Type :=
| Chr (c : N)            (* a literal character *)
| Range (lo hi : N)      (* lo-hi inside brackets *)
| Space                  (* \s *)
| Dot.                   (* . without DOTALL: anything but a newline *)

Inductive regex : Type :=
| Set_ (items : list item)   (* one character of a class *)
| Bol                        (* ^ *)
| Eol                        (* $ *)
| Seq (r1 r2 : regex)
| Alt (r1 r2 : regex)        (* r1|r2 *)
| Star (r : regex)           (* greedy r* *)
| Plus (r : regex).          (* greedy r+ *)

Definition item_ok (i : item) (c : N) : bool :=
  match i with
  | Chr a => c =? a
  | Range lo hi => (lo <=? c) && (c <=? hi)
  | Space => is_space c
  | Dot => negb (c =? NL)
  end.

Definition in_set (items : list item) (c : N) : bool :=
  existsb (fun i => item_ok i c) items.

(** [^]: at the start of the string, and with MULTILINE also right
    after a newline.  [prev] is the character before the position. *)
Definition at_bol (multiline : bool) (prev : option N) : bool :=
  match prev with
  | None => true
  | Some c => multiline && (c =? NL)
  end.

(** [$]: at the end of the string or before the newline that ends it,
    and with MULTILINE before any newline. *)
Definition at_eol (multiline : bool) (s : str) : bool :=
  match s with
  | [] => true
  | c :: s' =>
      (c =? NL) && (multiline || match s' with [] => true | _ => false end)
  end.

Section Matcher.
Variable multiline : bool.
Context {A : Type}.

(** A continuation receives the position reached: the character
    before it and the text after it. *)
Definition cont : Type := option N -> str -> option A.

(** Greedy repetition of the body [m]: one more round first, the rest
    of the pattern when that fails.  A round that consumes nothing is
    not repeated, so [length s] rounds are all there can be. *)
Fixpoint star (m : option N -> str -> cont -> option A) (fuel : nat)
    (prev : option N) (s : str) (k : cont) : option A :=
  match fuel with
  | O => k prev s
  | S n =>
      match m prev s (fun p' s' =>
               if (length s' <? length s)%nat then star m n p' s' k
               else None) with
      | Some x => Some x
      | None => k prev s
      end
  end.

Fixpoint rmatch (r : regex) (prev : option N) (s : str) (k : cont)
    : option A :=
  match r with
  | Set_ items =>
      match s with
      | c :: s' => if in_set items c then k (Some c) s' else None
      | [] => None
      end
  | Bol => if at_bol multiline prev then k prev s else None
  | Eol => if at_eol multiline s then k prev s else None
  | Seq r1 r2 => rmatch r1 prev s (fun p' s' => rmatch r2 p' s' k)
  | Alt r1 r2 =>
      match rmatch r1 prev s k with
      | Some x => Some x
      | None => rmatch r2 prev s k
      end
  | Star r1 => star (rmatch r1) (length s) prev s k
  | Plus r1 =>
      rmatch r1 prev s (fun p' s' => star (rmatch r1) (length s') p' s' k)
  end.
End Matcher.

(** A match: the text before it, [group(0)], and the text after it. *)
Record match_object : Type := MatchObject {
  before : str;
  group0 : str;
  after : str
}.

(** The pattern tried at one position. *)
Definition match_here (multiline : bool) (r : regex) (prev : option N)
    (pre s : str) : option match_object :=
  match rmatch multiline r prev s (fun _ rest => Some rest) with
  | Some rest =>
      Some (MatchObject pre (List.firstn (length s - length rest) s) rest)
  | None => None
  end.

(** The leftmost position where the pattern matches. *)
Fixpoint search_from (multiline : bool) (r : regex) (prev : option N)
    (pre s : str) : option match_object :=
  match match_here multiline r prev pre s with
  | Some m => Some m
  | None =>
      match s with
      | [] => None
      | c :: s' => search_from multiline r (Some c) (pre ++ [c]) s'
      end
  end.

(** [re.search(r, s, flags)] *)
Definition search (multiline : bool) (r : regex) (s : str)
    : option match_object :=
  search_from multiline r None [] s.

(** [re.match(r, s)]: the pattern at position 0 only. *)
Definition match_ (multiline : bool) (r : regex) (s : str)
    : option match_object :=
  match_here multiline r None [] s.

(** The character before the position reached after reading [u]. *)
Definition last_of (prev : option N) (u : str) : option N :=
  fold_left (fun _ c => Some c) u prev.

(** [re.split(r, s)] for a pattern without groups whose matches are
    never empty: the pieces between successive matches. *)
Fixpoint split_from (fuel : nat) (r : regex) (prev : option N) (s : str)
    : list str :=
  match fuel with
  | O => [s]
  | S n =>
      match search_from false r prev [] s with
      | None => [s]
      | Some m =>
          before m
          :: split_from n r (last_of prev (before m ++ group0 m)) (after m)
      end
  end.

Definition split (r : regex) (s : str) : list str :=
  split_from (length s) r None s.

End Re.

(** ** app_streamlit.py: the response decomposer *)

Module Decomposer.
Import Py Re.

(** [(?:[1-9][.)]|[*\-+])] *)
Definition marker : regex :=
  Alt (Seq (Set_ [Range (ch "1") (ch "9")]) (Set_ [Chr (ch "."); Chr (ch ")")]))
      (Set_ [Chr (ch "*"); Chr (ch "-"); Chr (ch "+")]).

(** One round of the step pattern: [\s*(?:[1-9][.)]|[*\-+])\s+.*(?:\n|$)] *)
Definition step_line : regex :=
  Seq (Star (Set_ [Space]))
    (Seq marker
      (Seq (Plus (Set_ [Space]))
        (Seq (Star (Set_ [Dot]))
          (Alt (Set_ [Chr NL]) Eol)))).

(** [step_pattern = r"^(?:\s*(?:[1-9][.)]|[*\-+])\s+.*(?:\n|$))+"] *)
Definition step_pattern : regex := Seq Bol (Plus step_line).

(** [r'\n\s*\n'] *)
Definition paragraph_break : regex :=
  Seq (Set_ [Chr NL]) (Seq (Star (Set_ [Space])) (Set_ [Chr NL])).

(** [r"^\s*(?:[1-9][.)]|[*\-+])\s+"] *)
Definition item_prefix : regex :=
  Seq Bol (Seq (Star (Set_ [Space])) (Seq marker (Plus (Set_ [Space])))).

Record decomposition : Type := Decomposition {
  steps : str;
  encouragement : str
}.

Definition MULTILINE : bool := true.

(** [paragraphs = re.split(r'\n\s*\n', message_content)]
    [paragraphs = [p.strip() for p in paragraphs if p.strip()]] *)
Definition paragraphs_of (message_content : str) : list str :=
  List.map strip
    (List.filter (fun p => truthy (strip p))
       (split paragraph_break message_content)).

(** [re.search(step_pattern, message_content, re.MULTILINE)] *)
Definition step_match_of (message_content : str) : option match_object :=
  search MULTILINE step_pattern message_content.

(** Lines 61 to 93 of [get_ai_decomposition]: the parsing of
    [message_content].  The two variables start with a default text and
    every branch of the [if] chain assigns both.  [paragraphs[-1]] is
    read only where [len(paragraphs) > 1], so the default of [List.last]
    is never returned. *)
Definition parse_response (message_content : str) : decomposition :=
  let steps := lit "Could not identify clear steps in the response." in
  let encouragement := lit "Remember, just starting is a win!" in
  let step_match := step_match_of message_content in
  let paragraphs := paragraphs_of message_content in
  match step_match, (1 <? length paragraphs)%nat with
  | Some m, true =>
      let potential_encouragement := List.last paragraphs [] in
      Decomposition (strip (group0 m))
        (match match_ false item_prefix potential_encouragement with
         | None => potential_encouragement
         | Some _ => lit "Focus on that first step, you can do it!"
         end)
  | _, _ =>
      if (1 <? length paragraphs)%nat then
        Decomposition (join [NL; NL] (List.removelast paragraphs))
                      (List.last paragraphs [])
      else if (length paragraphs =? 1)%nat then
        match step_match with
        | Some _ =>
            Decomposition message_content
                          (lit "Just taking the first step is progress!")
        | None =>
            Decomposition (lit "No specific steps identified.")
                          message_content
        end
      else
        Decomposition message_content
                      (lit "Remember to take it one step at a time.")
  end.

(** [get_ai_decomposition(task_description)].  The completion call is
    outside the program: [create] gives the content of the first choice,
    or [None] where the call raises. *)
Definition get_ai_decomposition (openai_config_missing : bool)
    (create : str -> option str) (task_description : str)
    : option decomposition :=
  if openai_config_missing then None
  else
    match create task_description with
    | None => None
    | Some content =>
        let message_content := strip content in
        Some (parse_response message_content)
    end.

End Decomposer.

(** ** auth.py: the credential store *)

Module Auth.
Local Open Scope string_scope.

(** A value of a SQLite column as [sqlite3] hands it to Python: [None],
    [int], [str] or [bytes]. *)
Inductive value : Type :=
| Null
| Int (z : Z)
| Text (s : string)
| Blob (b : string).

(** A row of the table [users], the columns in the order of the
    [CREATE TABLE] of [init_db]. *)
Record user : Type := User {
  id : Z;
  username : string;
  email : string;
  password_hash : string;
  openai_api_key : option string;
  created_at : string;
  last_login : option string
}.

Definition nullable (o : option string) : value :=
  match o with
  | Some s => Text s
  | None => Null
  end.

(** The tuple that [SELECT *] returns for a row. *)
Definition select_star (u : user) : list value :=
  [Int (id u); Text (username u); Text (email u); Blob (password_hash u);
   nullable (openai_api_key u); Text (created_at u); nullable (last_login u)].

(** [SELECT openai_api_key]: a tuple of one column. *)
Definition select_api_key (u : user) : list value :=
  [nullable (openai_api_key u)].

Inductive exn : Type :=
| OperationalError    (* the storage layer failed *)
| IntegrityError      (* a UNIQUE constraint failed *)
| IndexError
| TypeError
| ValueError          (* bcrypt refused its arguments *)
| UnicodeEncodeError  (* a text that UTF-8 does not encode *)
| OverflowError.      (* an integer that does not fit 64 bits *)

(** The file [users.db] and what surrounds a call: the committed table,
    the table as the connection in use sees it, the number of
    connections that are open, whether each coming call of the storage
    layer fails, the clock and the salt [bcrypt.gensalt()] draws. *)
Record world : Type := World {
  committed : list user;
  session : list user;
  open_connections : nat;
  faults : list bool;
  now : string;
  salt : string
}.

Inductive outcome (A : Type) : Type :=
| Return (a : A)
| Raise (e : exn).
Arguments Return {A} a.
Arguments Raise {A} e.

(** A Python computation: it reads and writes the world and returns or
    raises. *)
Definition M (A : Type) : Type := world -> outcome A * world.

Definition ret {A : Type} (a : A) : M A := fun w => (Return a, w).

Definition raise {A : Type} (e : exn) : M A := fun w => (Raise e, w).

Definition bind {A B : Type} (c : M A) (k : A -> M B) : M B :=
  fun w =>
    match c w with
    | (Return a, w') => k a w'
    | (Raise e, w') => (Raise e, w')
    end.

(** [try: body except Exception as e: handler] *)
Definition try_except {A : Type} (body : M A) (handler : exn -> M A) : M A :=
  fun w =>
    match body w with
    | (Return a, w') => (Return a, w')
    | (Raise e, w') => handler e w'
    end.

Declare Scope py_scope.
Delimit Scope py_scope with py.
Notation "x <- c ;; k" := (bind c (fun x => k))
  (at level 100, c at next level, right associativity) : py_scope.
Notation "c ;; k" := (bind c (fun _ => k))
  (at level 100, right associativity) : py_scope.
Local Open Scope py_scope.

(** *** str.encode and bcrypt

    What the codec and bcrypt compute is outside the program.  Each of
    the three gives [None] where the Python call raises: [utf8] on a
    text with a code point that UTF-8 does not encode (a lone
    surrogate), [hashpw] and [checkpw] where bcrypt refuses its
    arguments (bcrypt 5 refuses a password of more than 72 bytes, and
    [checkpw] a hash that it cannot read). *)
Class Bcrypt : Type := {
  utf8 : string -> option string;
  hashpw : string -> string -> option string;
  checkpw : string -> string -> option bool
}.

(** *** sqlite3 *)

(** Any call of the storage layer may fail. *)
Definition storage_call : M unit :=
  fun w =>
    match faults w with
    | [] => (Return tt, w)
    | failing :: rest =>
        let w' := World (committed w) (session w) (open_connections w) rest
                        (now w) (salt w) in
        if failing : bool then (Raise OperationalError, w') else (Return tt, w')
    end.

(** [conn = sqlite3.connect('users.db')]: one more open connection,
    which sees the committed table. *)
Definition connect : M unit :=
  storage_call ;;
  fun w =>
    (Return tt,
     World (committed w) (committed w) (S (open_connections w)) (faults w)
           (now w) (salt w)).

Section Statements.
Context {bcrypt : Bcrypt}.

(** [s.encode('utf-8')] *)
Definition str_encode (s : string) : M string :=
  match utf8 s with
  | Some b => ret b
  | None => raise UnicodeEncodeError
  end.

(** A [str] given for a [?] of a statement is passed to SQLite as
    UTF-8. *)
Definition bind_text (s : string) : M unit :=
  str_encode s ;;
  ret tt.

(** An [int] given for a [?] is passed as a 64-bit integer. *)
Definition bind_int (z : Z) : M unit :=
  if ((- 2 ^ 63 <=? z) && (z <? 2 ^ 63))%Z then ret tt
  else raise OverflowError.

(** [c.execute('SELECT columns FROM users WHERE condition', params)]
    and the rows the cursor then holds.  The storage layer may fail on
    the statement, and binding its parameters may raise. *)
Definition execute_select (params : M unit) (columns : user -> list value)
    (condition : user -> bool) : M (list (list value)) :=
  storage_call ;;
  params ;;
  fun w => (Return (List.map columns (List.filter condition (session w))), w).

(** [c.fetchone()] *)
Definition fetchone (rows : list (list value)) : option (list value) :=
  List.head rows.

(** The id that AUTOINCREMENT gives: above every id of the table. *)
Definition next_id (rows : list user) : Z :=
  (1 + fold_right Z.max 0 (List.map id rows))%Z.

Definition conflicts (u e : string) (row : user) : bool :=
  String.eqb (username row) u || String.eqb (email row) e.

(** [c.execute('INSERT INTO users (username, email, password_hash)
    VALUES (?, ?, ?)', ...)]: both [username] and [email] are UNIQUE;
    [created_at] defaults to the current time. *)
Definition execute_insert (u e h : string) : M unit :=
  storage_call ;;
  bind_text u ;;
  bind_text e ;;
  fun w =>
    if existsb (conflicts u e) (session w) then (Raise IntegrityError, w)
    else
      (Return tt,
       World (committed w)
             (session w ++ [User (next_id (session w)) u e h None (now w) None])
             (open_connections w) (faults w) (now w) (salt w)).

(** [c.execute('UPDATE users SET ... WHERE condition', params)] *)
Definition execute_update (params : M unit) (condition : user -> bool)
    (set : user -> user) : M unit :=
  storage_call ;;
  params ;;
  fun w =>
    (Return tt,
     World (committed w)
           (List.map (fun row => if condition row then set row else row)
                     (session w))
           (open_connections w) (faults w) (now w) (salt w)).

End Statements.

(** [conn.commit()] *)
Definition commit : M unit :=
  storage_call ;;
  fun w =>
    (Return tt,
     World (session w) (session w) (open_connections w) (faults w)
           (now w) (salt w)).

(** [conn.close()]: what was not committed is lost. *)
Definition close : M unit :=
  fun w =>
    (Return tt,
     World (committed w) (committed w) (Nat.pred (open_connections w))
           (faults w) (now w) (salt w)).

(** [datetime.now()] *)
Definition datetime_now : M string := fun w => (Return (now w), w).

(** [user[i]] *)
Definition index (row : list value) (i : nat) : M value :=
  match row !! i with
  | Some v => ret v
  | None => raise IndexError
  end.

(** *** The operations *)

Section Operations.
Context {bcrypt : Bcrypt}.

(** [bcrypt.gensalt()] *)
Definition gensalt : M string := fun w => (Return (salt w), w).

(** [bcrypt.hashpw(password.encode('utf-8'), salt)] *)
Definition hash_password (password : string) : M string :=
  s <- gensalt ;;
  b <- str_encode password ;;
  match hashpw b s with
  | Some h => ret h
  | None => raise ValueError
  end.

(** [bcrypt.checkpw(password.encode('utf-8'), password_hash)];
    [checkpw] takes [bytes]. *)
Definition verify_password (password : string) (hash : value) : M bool :=
  b <- str_encode password ;;
  match hash with
  | Blob h =>
      match checkpw b h with
      | Some verified => ret verified
      | None => raise ValueError
      end
  | _ => raise TypeError
  end.

(** What [login_user] returns beside the flag: the dictionary of the
    user, or a message. *)
Inductive payload : Type :=
| Info (d : gmap string value)
| Message (s : string).

Definition set_last_login (t : string) (row : user) : user :=
  User (id row) (username row) (email row) (password_hash row)
       (openai_api_key row) (created_at row) (Some t).

Definition set_api_key (k : string) (row : user) : user :=
  User (id row) (username row) (email row) (password_hash row)
       (Some k) (created_at row) (last_login row).

Definition has_username (u : string) (row : user) : bool :=
  String.eqb (username row) u.

Definition has_id (i : Z) (row : user) : bool := Z.eqb (id row) i.

(** The dictionary built by [login_user] and by [get_user_by_id]. *)
Definition user_dict (row : list value) : M (gmap string value) :=
  v_id <- index row 0 ;;
  v_username <- index row 1 ;;
  v_email <- index row 2 ;;
  v_created_at <- index row 4 ;;
  v_last_login <- index row 5 ;;
  ret (<["id" := v_id]>
       (<["username" := v_username]>
        (<["email" := v_email]>
         (<["created_at" := v_created_at]>
          (<["last_login" := v_last_login]> ∅))))).

Definition register_user (u e password : string) : M (bool * string) :=
  try_except
    (connect ;;
     rows <- execute_select (bind_text u ;; bind_text e) select_star
               (conflicts u e) ;;
     match fetchone rows with
     | Some _ =>
         close ;;
         ret (false, "Username or email already exists")
     | None =>
         h <- hash_password password ;;
         execute_insert u e h ;;
         commit ;;
         close ;;
         ret (true, "Registration successful")
     end)
    (fun _ => ret (false, "Registration failed")).

Definition login_user (u password : string) : M (bool * payload) :=
  try_except
    (connect ;;
     rows <- execute_select (bind_text u) select_star (has_username u) ;;
     let user := fetchone rows in
     verified <- match user with
                 | Some row => h <- index row 3 ;; verify_password password h
                 | None => ret false
                 end ;;
     match user, verified with
     | Some row, true =>
         t <- datetime_now ;;
         execute_update (bind_text u) (has_username u) (set_last_login t) ;;
         commit ;;
         close ;;
         d <- user_dict row ;;
         ret (true, Info d)
     | _, _ =>
         close ;;
         ret (false, Message "Invalid username or password")
     end)
    (fun _ => ret (false, Message "Login failed")).

Definition get_user_by_id (user_id : Z) : M (option (gmap string value)) :=
  try_except
    (connect ;;
     rows <- execute_select (bind_int user_id) select_star (has_id user_id) ;;
     let user := fetchone rows in
     close ;;
     match user with
     | Some row => d <- user_dict row ;; ret (Some d)
     | None => ret None
     end)
    (fun _ => ret None).

Definition update_openai_api_key (u api_key : string) : M (bool * string) :=
  try_except
    (connect ;;
     execute_update (bind_text api_key ;; bind_text u) (has_username u)
       (set_api_key api_key) ;;
     commit ;;
     close ;;
     ret (true, "API key updated successfully"))
    (fun _ => ret (false, "Failed to update API key")).

(** [None] is [Null]. *)
Definition get_openai_api_key (u : string) : M value :=
  try_except
    (connect ;;
     rows <- execute_select (bind_text u) select_api_key (has_username u) ;;
     let result := fetchone rows in
     close ;;
     match result with
     | Some row => index row 0
     | None => ret Null
     end)
    (fun _ => ret Null).
End Operations.

End Auth.

(** ** Facts about [strip] *)

Module PyFacts.
Import Py.

(** A text with no character but white space. *)
Definition blank (s : str) : bool := forallb is_space s.

(** The text does not start with white space. *)
Definition head_ok (s : str) : bool :=
  match s with
  | [] => true
  | c :: _ => negb (is_space c)
  end.

(** The text neither starts nor ends with white space. *)
Definition trimmed (s : str) : bool := head_ok s && head_ok (rev s).

Lemma lstrip_split (s : str) :
  exists w, s = w ++ lstrip s /\ blank w = true.
Proof.
  induction s as [|c s IH]; simpl.
  - exists []. auto.
  - destruct (is_space c) eqn:Hc.
    + destruct IH as (w & Hw & Hb). exists (c :: w). simpl.
      rewrite Hc, Hb. split; [congruence | reflexivity].
    + exists []. auto.
Qed.

Lemma lstrip_head_ok (s : str) : head_ok (lstrip s) = true.
Proof.
  induction s as [|c s IH]; simpl; [reflexivity|].
  destruct (is_space c) eqn:Hc; [exact IH | simpl; rewrite Hc; reflexivity].
Qed.

Lemma lstrip_id (s : str) : head_ok s = true -> lstrip s = s.
Proof.
  destruct s as [|c s]; simpl; [reflexivity|].
  destruct (is_space c); [discriminate | reflexivity].
Qed.

Lemma lstrip_blank (s : str) : blank s = true -> lstrip s = [].
Proof.
  induction s as [|c s IH]; simpl; [reflexivity|].
  destruct (is_space c); simpl; [exact IH | discriminate].
Qed.

Lemma blank_app (u v : str) : blank (u ++ v) = blank u && blank v.
Proof. apply forallb_app. Qed.

Lemma blank_rev (s : str) : blank (rev s) = blank s.
Proof.
  induction s as [|c s IH]; simpl; [reflexivity|].
  rewrite blank_app, IH. simpl. rewrite andb_true_r. apply andb_comm.
Qed.

Lemma rstrip_split (s : str) :
  exists w, s = rstrip s ++ w /\ blank w = true.
Proof.
  unfold rstrip. destruct (lstrip_split (rev s)) as (w & Hw & Hb).
  exists (rev w). split; [|rewrite blank_rev; exact Hb].
  rewrite <- rev_app_distr, <- Hw, rev_involutive. reflexivity.
Qed.

Lemma rstrip_last_ok (s : str) : head_ok (rev (rstrip s)) = true.
Proof. unfold rstrip. rewrite rev_involutive. apply lstrip_head_ok. Qed.

Lemma head_ok_prefix (u v : str) :
  head_ok (u ++ v) = true -> u <> [] -> head_ok u = true.
Proof. destruct u; [congruence | simpl; auto]. Qed.

Lemma rstrip_head_ok (s : str) : head_ok s = true -> head_ok (rstrip s) = true.
Proof.
  intros H. destruct (rstrip_split s) as (w & Hw & _).
  destruct (rstrip s) as [|c t] eqn:E; [reflexivity|].
  rewrite Hw in H. exact H.
Qed.

Lemma rstrip_id (s : str) : head_ok (rev s) = true -> rstrip s = s.
Proof.
  intros H. unfold rstrip. rewrite (lstrip_id _ H). apply rev_involutive.
Qed.

(** What [strip] removes is white space, on both sides. *)
Lemma strip_split (s : str) :
  exists w1 w2, s = w1 ++ strip s ++ w2 /\ blank w1 = true /\ blank w2 = true.
Proof.
  unfold strip. destruct (lstrip_split s) as (w1 & H1 & B1).
  destruct (rstrip_split (lstrip s)) as (w2 & H2 & B2).
  exists w1, w2. rewrite <- H2. auto.
Qed.

Lemma strip_trimmed (s : str) : trimmed (strip s) = true.
Proof.
  unfold trimmed, strip. rewrite rstrip_last_ok, andb_true_r.
  apply rstrip_head_ok, lstrip_head_ok.
Qed.

Lemma trimmed_strip (s : str) : trimmed s = true -> strip s = s.
Proof.
  unfold trimmed, strip. intros H. apply andb_true_iff in H as [H1 H2].
  rewrite (lstrip_id _ H1). apply rstrip_id, H2.
Qed.

Lemma strip_idempotent (s : str) : strip (strip s) = strip s.
Proof. apply trimmed_strip, strip_trimmed. Qed.

Lemma strip_blank (s : str) : blank s = true -> strip s = [].
Proof. intros H. unfold strip. rewrite (lstrip_blank _ H). reflexivity. Qed.

Lemma strip_nil_blank (s : str) : strip s = [] -> blank s = true.
Proof.
  intros H. destruct (strip_split s) as (w1 & w2 & Hs & B1 & B2).
  rewrite Hs, H, blank_app, B1. exact B2.
Qed.

(** A text with a character that is not white space does not strip to
    the empty text. *)
Lemma strip_not_nil (u v : str) (c : N) :
  is_space c = false -> strip (u ++ c :: v) <> [].
Proof.
  intros Hc H. apply strip_nil_blank in H.
  rewrite blank_app in H. simpl in H. rewrite Hc in H.
  rewrite andb_false_r in H. discriminate.
Qed.

Lemma rev_cons_not_nil (c : N) (s : str) : rev (c :: s) <> [].
Proof.
  intros H. apply (f_equal (@length N)) in H.
  rewrite length_rev in H. discriminate.
Qed.

(** A trimmed text that is not empty starts and ends with a character
    that is not white space. *)
Lemma trimmed_not_blank (s : str) :
  trimmed s = true -> s <> [] -> blank s = false.
Proof.
  intros H Hs. destruct s as [|c s]; [congruence|].
  unfold trimmed in H. apply andb_true_iff in H as [H _]. simpl in H.
  simpl. destruct (is_space c); [discriminate | reflexivity].
Qed.

End PyFacts.

(** ** What a match of the backtracking matcher is *)

Module ReFacts.
Import Py Re.

Lemma last_of_app (p : option N) (u v : str) :
  last_of p (u ++ v) = last_of (last_of p u) v.
Proof. unfold last_of. apply fold_left_app. Qed.

(** [Matches ml r p u t]: the pattern [r] accepts the text [u] when the
    character before [u] is [p] and the text after it is [t]. *)
Inductive Matches (ml : bool) : regex -> option N -> str -> str -> Prop :=
| MSet items p c t :
    in_set items c = true -> Matches ml (Set_ items) p [c] t
| MBol p t :
    at_bol ml p = true -> Matches ml Bol p [] t
| MEol p t :
    at_eol ml t = true -> Matches ml Eol p [] t
| MSeq r1 r2 p u v t :
    Matches ml r1 p u (v ++ t) -> Matches ml r2 (last_of p u) v t ->
    Matches ml (Seq r1 r2) p (u ++ v) t
| MAltL r1 r2 p u t :
    Matches ml r1 p u t -> Matches ml (Alt r1 r2) p u t
| MAltR r1 r2 p u t :
    Matches ml r2 p u t -> Matches ml (Alt r1 r2) p u t
| MStar0 r p t :
    Matches ml (Star r) p [] t
| MStarS r p u v t :
    u <> [] -> Matches ml r p u (v ++ t) ->
    Matches ml (Star r) (last_of p u) v t ->
    Matches ml (Star r) p (u ++ v) t
| MPlus r p u v t :
    Matches ml r p u (v ++ t) -> Matches ml (Star r) (last_of p u) v t ->
    Matches ml (Plus r) p (u ++ v) t.

Section Soundness.
Variable ml : bool.
Context {A : Type}.

(** What a successful run of a matcher [m] for the pattern [r] gives:
    a split of the text into an accepted part and the rest, on which
    the continuation succeeded. *)
Definition sound_for (r : regex)
    (m : option N -> str -> cont (A:=A) -> option A) : Prop :=
  forall p s k x, m p s k = Some x ->
    exists u t, s = u ++ t /\ Matches ml r p u t
                /\ k (last_of p u) t = Some x.

Lemma star_sound (r : regex) m :
  sound_for r m -> forall fuel, sound_for (Star r) (star m fuel).
Proof.
  intros Hm fuel. induction fuel as [|n IH]; intros p s k x H; simpl in H.
  - exists [], s. repeat split; [constructor | exact H].
  - destruct (m p s _) as [y|] eqn:E.
    + inversion H; subst y; clear H.
      apply Hm in E as (u & t & Hs & Hu & Hk).
      destruct (length t <? length s)%nat eqn:Hlen; [|discriminate].
      apply IH in Hk as (v & t' & Ht & Hv & Hk).
      exists (u ++ v), t'. subst t. rewrite <- app_assoc.
      repeat split; [exact Hs | | rewrite last_of_app; exact Hk].
      apply MStarS; auto.
      intros ->. simpl in Hs. subst s.
      apply Nat.ltb_lt in Hlen. lia.
    + exists [], s. repeat split; [constructor | exact H].
Qed.

Lemma rmatch_sound (r : regex) : sound_for r (rmatch ml r).
Proof.
  induction r as [items| | |r1 IH1 r2 IH2|r1 IH1 r2 IH2|r IH|r IH];
    intros p s k x H; simpl in H.
  - destruct s as [|c s]; [discriminate|].
    destruct (in_set items c) eqn:Hc; [|discriminate].
    exists [c], s. repeat split; [constructor; exact Hc | exact H].
  - destruct (at_bol ml p) eqn:Hb; [|discriminate].
    exists [], s. repeat split; [constructor; exact Hb | exact H].
  - destruct (at_eol ml s) eqn:Hb; [|discriminate].
    exists [], s. repeat split; [constructor; exact Hb | exact H].
  - apply IH1 in H as (u & t & Hs & Hu & H).
    apply IH2 in H as (v & t' & Ht & Hv & H).
    exists (u ++ v), t'. subst t. rewrite <- app_assoc.
    repeat split; [exact Hs | | rewrite last_of_app; exact H].
    constructor; assumption.
  - destruct (rmatch ml r1 p s k) as [y|] eqn:E.
    + inversion H; subst y.
      apply IH1 in E as (u & t & Hs & Hu & Hk).
      exists u, t. repeat split; [exact Hs | | exact Hk].
      apply MAltL, Hu.
    + apply IH2 in H as (u & t & Hs & Hu & Hk).
      exists u, t. repeat split; [exact Hs | | exact Hk].
      apply MAltR, Hu.
  - apply (star_sound r _ IH) in H. exact H.
  - apply IH in H as (u & t & Hs & Hu & H).
    apply (star_sound r _ IH) in H as (v & t' & Ht & Hv & H).
    exists (u ++ v), t'. subst t. rewrite <- app_assoc.
    repeat split; [exact Hs | | rewrite last_of_app; exact H].
    constructor; assumption.
Qed.
End Soundness.

Lemma firstn_suffix (u t : str) :
  List.firstn (length (u ++ t) - length t) (u ++ t) = u.
Proof.
  rewrite length_app, Nat.add_sub.
  rewrite firstn_app, Nat.sub_diag, firstn_all. simpl. apply app_nil_r.
Qed.

(** A match at a position: [group(0)] is accepted by the pattern, and is
    followed by [after]. *)
Lemma match_here_sound ml r prev pre s m :
  match_here ml r prev pre s = Some m ->
  before m = pre /\ s = group0 m ++ after m
  /\ Matches ml r prev (group0 m) (after m).
Proof.
  unfold match_here. intros H.
  destruct (rmatch ml r prev s _) as [rest|] eqn:E; [|discriminate].
  inversion H; subst m; clear H. simpl.
  apply rmatch_sound in E as (u & t & Hs & Hu & Hk).
  inversion Hk; subst rest s. rewrite firstn_suffix. auto.
Qed.

(** A match found by the search: the text is what was skipped, then
    [group(0)], then [after]. *)
Lemma search_from_sound ml r s : forall prev pre m,
  search_from ml r prev pre s = Some m ->
  exists skipped,
    before m = pre ++ skipped /\ s = skipped ++ group0 m ++ after m
    /\ Matches ml r (last_of prev skipped) (group0 m) (after m).
Proof.
  induction s as [|c s IH]; intros prev pre m H; simpl in H.
  - destruct (match_here ml r prev pre []) as [m'|] eqn:E; [|discriminate].
    inversion H; subst m'. apply match_here_sound in E as (Hb & Hs & Hm).
    exists []. rewrite app_nil_r. auto.
  - destruct (match_here ml r prev pre (c :: s)) as [m'|] eqn:E.
    + inversion H; subst m'. apply match_here_sound in E as (Hb & Hs & Hm).
      exists []. rewrite app_nil_r. auto.
    + apply IH in H as (sk & Hb & Hs & Hm).
      exists (c :: sk). rewrite Hb, <- app_assoc. simpl.
      repeat split; [congruence | exact Hm].
Qed.

Lemma search_sound ml r s m :
  search ml r s = Some m ->
  s = before m ++ group0 m ++ after m
  /\ Matches ml r (last_of None (before m)) (group0 m) (after m).
Proof.
  intros H. apply search_from_sound in H as (sk & Hb & Hs & Hm).
  simpl in Hb. subst sk. auto.
Qed.

(** *** The fuel of a repetition is enough

    A round of a repetition is repeated only when it has consumed a
    character, so a repetition on [s] never makes more than [length s]
    rounds: any fuel from [length s] on gives the same result. *)

Section Fuel.
Variable ml : bool.
Context {A : Type}.

Definition extensional (m : option N -> str -> cont (A:=A) -> option A)
    : Prop :=
  forall p s k1 k2,
    (forall p' s', k1 p' s' = k2 p' s') -> m p s k1 = m p s k2.

Definition fail_closed (m : option N -> str -> cont (A:=A) -> option A)
    : Prop :=
  forall p s, m p s (fun _ _ => None) = None.

Lemma star_extensional m :
  extensional m -> forall n, extensional (star m n).
Proof.
  intros Hm n. induction n as [|n IH]; intros p s k1 k2 Hk; simpl.
  - apply Hk.
  - rewrite Hk.
    rewrite (Hm p s _ (fun p' s' =>
               if (length s' <? length s)%nat then star m n p' s' k2
               else None)); [reflexivity|].
    intros p' s'. destruct (length s' <? length s)%nat; [|reflexivity].
    apply IH, Hk.
Qed.

Lemma star_fail_closed m :
  extensional m -> fail_closed m -> forall n, fail_closed (star m n).
Proof.
  intros Hm Hf n. induction n as [|n IH]; intros p s; simpl; [reflexivity|].
  rewrite (Hm p s _ (fun _ _ => None)); [rewrite Hf; reflexivity|].
  intros p' s'. destruct (length s' <? length s)%nat; [apply IH | reflexivity].
Qed.

Lemma rmatch_extensional (r : regex) : extensional (rmatch ml r).
Proof.
  induction r as [items| | |r1 IH1 r2 IH2|r1 IH1 r2 IH2|r IH|r IH];
    intros p s k1 k2 Hk; simpl.
  - destruct s as [|c s]; [reflexivity|]. rewrite Hk. reflexivity.
  - rewrite Hk. reflexivity.
  - rewrite Hk. reflexivity.
  - apply IH1. intros p' s'. apply IH2, Hk.
  - rewrite (IH1 p s k1 k2 Hk), (IH2 p s k1 k2 Hk). reflexivity.
  - apply star_extensional; assumption.
  - apply IH. intros p' s'. apply star_extensional; assumption.
Qed.

Lemma rmatch_fail_closed (r : regex) : fail_closed (rmatch ml r).
Proof.
  induction r as [items| | |r1 IH1 r2 IH2|r1 IH1 r2 IH2|r IH|r IH];
    intros p s; simpl.
  - destruct s as [|c s]; [reflexivity|].
    destruct (in_set items c); reflexivity.
  - destruct (at_bol ml p); reflexivity.
  - destruct (at_eol ml s); reflexivity.
  - rewrite (rmatch_extensional r1 p s _ (fun _ _ => None));
      [apply IH1 | intros; apply IH2].
  - rewrite IH1. apply IH2.
  - apply star_fail_closed; [apply rmatch_extensional | exact IH].
  - rewrite (rmatch_extensional r p s _ (fun _ _ => None)); [apply IH|].
    intros p' s'. apply star_fail_closed; [apply rmatch_extensional | exact IH].
Qed.

Lemma star_fuel m :
  extensional m -> fail_closed m ->
  forall n1 n2 p s k,
    (length s <= n1)%nat -> (length s <= n2)%nat ->
    star m n1 p s k = star m n2 p s k.
Proof.
  intros Hm Hf.
  assert (Hnil : forall n p k, star m n p [] k = k p []).
  { intros [|n] p k; simpl; [reflexivity|]. rewrite Hf. reflexivity. }
  induction n1 as [|a IH]; intros n2 p s k H1 H2.
  - destruct s; [|simpl in H1; lia]. rewrite !Hnil. reflexivity.
  - destruct n2 as [|b].
    + destruct s; [|simpl in H2; lia]. rewrite !Hnil. reflexivity.
    + simpl.
      rewrite (Hm p s _ (fun p' s' =>
                 if (length s' <? length s)%nat then star m b p' s' k
                 else None)); [reflexivity|].
      intros p' s'. destruct (length s' <? length s)%nat eqn:E; [|reflexivity].
      apply Nat.ltb_lt in E. apply IH; lia.
Qed.

(** [r*] on [s] with any fuel from [length s] on is [rmatch] of [r*]. *)
Lemma star_enough_fuel (r : regex) n p s (k : cont (A:=A)) :
  (length s <= n)%nat ->
  star (rmatch ml r) n p s k = rmatch ml (Star r) p s k.
Proof.
  intros H. simpl. apply star_fuel;
    [apply rmatch_extensional | apply rmatch_fail_closed | exact H | lia].
Qed.
End Fuel.

(** *** The matcher, one step at a time *)

Section Steps.
Variable ml : bool.
Context {A : Type}.

Lemma star_S m n p s (k : cont (A:=A)) :
  star m (S n) p s k
  = match m p s (fun p' s' =>
             if (length s' <? length s)%nat then star m n p' s' k
             else None) with
    | Some x => Some x
    | None => k p s
    end.
Proof. reflexivity. Qed.

Lemma rmatch_seq r1 r2 p s (k : cont (A:=A)) :
  rmatch ml (Seq r1 r2) p s k
  = rmatch ml r1 p s (fun p' s' => rmatch ml r2 p' s' k).
Proof. reflexivity. Qed.

Lemma rmatch_alt r1 r2 p s (k : cont (A:=A)) :
  rmatch ml (Alt r1 r2) p s k
  = match rmatch ml r1 p s k with
    | Some x => Some x
    | None => rmatch ml r2 p s k
    end.
Proof. reflexivity. Qed.

Lemma rmatch_star r p s (k : cont (A:=A)) :
  rmatch ml (Star r) p s k = star (rmatch ml r) (length s) p s k.
Proof. reflexivity. Qed.

Lemma rmatch_plus r p s (k : cont (A:=A)) :
  rmatch ml (Plus r) p s k
  = rmatch ml r p s (fun p' s' => star (rmatch ml r) (length s') p' s' k).
Proof. reflexivity. Qed.

Lemma rmatch_bol p s (k : cont (A:=A)) :
  rmatch ml Bol p s k = if at_bol ml p then k p s else None.
Proof. reflexivity. Qed.

Lemma rmatch_eol p s (k : cont (A:=A)) :
  rmatch ml Eol p s k = if at_eol ml s then k p s else None.
Proof. reflexivity. Qed.

Lemma rmatch_set_nil items p (k : cont (A:=A)) :
  rmatch ml (Set_ items) p [] k = None.
Proof. reflexivity. Qed.

Lemma rmatch_set_cons items p c s (k : cont (A:=A)) :
  rmatch ml (Set_ items) p (c :: s) k
  = if in_set items c then k (Some c) s else None.
Proof. reflexivity. Qed.

(** A repetition does not fail where what follows it succeeds right
    away. *)
Lemma star_falls_back m n p s (k : cont (A:=A)) :
  k p s <> None -> star m n p s k <> None.
Proof.
  intros Hk. destruct n; [exact Hk|]. rewrite star_S.
  destruct (m p s _); [discriminate | exact Hk].
Qed.
End Steps.

(** The match that a search returns was found at some position of the
    text. *)
Lemma search_from_position ml r s : forall prev pre m,
  search_from ml r prev pre s = Some m ->
  exists skipped here,
    s = skipped ++ here
    /\ match_here ml r (last_of prev skipped) (pre ++ skipped) here = Some m.
Proof.
  induction s as [|c s IH]; intros prev pre m H; simpl in H.
  - exists [], []. split; [reflexivity|]. rewrite app_nil_r.
    destruct (match_here ml r prev pre []) as [m'|] eqn:E; [|discriminate].
    rewrite <- H. exact E.
  - destruct (match_here ml r prev pre (c :: s)) as [m'|] eqn:E.
    + exists [], (c :: s). split; [reflexivity|]. rewrite app_nil_r.
      rewrite <- H. exact E.
    + apply IH in H as (sk & here & -> & H).
      exists (c :: sk), here. split; [reflexivity|].
      rewrite <- app_assoc in H. exact H.
Qed.

End ReFacts.

(** ** The response decomposer: what the three patterns accept *)

Module DecomposerFacts.
Import Py Re PyFacts ReFacts Decomposer.

(** *** The claims' words, as definitions of their own *)

Definition is_digit_1_9 (c : N) : bool := (ch "1" <=? c) && (c <=? ch "9").

Definition is_bullet (c : N) : bool :=
  (c =? ch "*") || (c =? ch "-") || (c =? ch "+").

Definition is_dot_or_paren (c : N) : bool := (c =? ch ".") || (c =? ch ")").

(** A digit 1-9 followed by [.] or [)], or one of [*], [-], [+]. *)
Definition is_marker (mk : str) : bool :=
  match mk with
  | [d; c] => is_digit_1_9 d && is_dot_or_paren c
  | [b] => is_bullet b
  | _ => false
  end.

(** The text begins with a list-item prefix: a marker, then white
    space. *)
Definition begins_with_list_prefix (p : str) : bool :=
  match p with
  | a :: b :: rest =>
      (is_digit_1_9 a && is_dot_or_paren b
       && match rest with c :: _ => is_space c | [] => false end)
      || (is_bullet a && is_space b)
  | _ => false
  end.

Definition no_newline (s : str) : bool := forallb (fun c => negb (c =? NL)) s.

(** One list item of a step block: optional white space, a marker, white
    space, the rest of the line, and the line terminator when the line
    has one. *)
Definition list_item (x : str) : Prop :=
  exists w1 mk w2 body term,
    x = w1 ++ mk ++ w2 ++ body ++ term
    /\ blank w1 = true /\ is_marker mk = true
    /\ w2 <> [] /\ blank w2 = true
    /\ no_newline body = true
    /\ (term = [NL] \/ term = []).

(** Such an item where [t] follows it in the text: the line has no
    terminator only where the text ends. *)
Definition list_item_before (t : str) (x : str) : Prop :=
  exists w1 mk w2 body term,
    x = w1 ++ mk ++ w2 ++ body ++ term
    /\ blank w1 = true /\ is_marker mk = true
    /\ w2 <> [] /\ blank w2 = true
    /\ no_newline body = true
    /\ (term = [NL] \/ (term = [] /\ t = [])).

(** List items one after the other, followed by [t]: every item runs to
    the end of its line. *)
Fixpoint run_of_items (items : list str) (t : str) : Prop :=
  match items with
  | [] => True
  | x :: rest => list_item_before (concat rest ++ t) x /\ run_of_items rest t
  end.

(** The paragraphs one after the other with one blank line between two
    neighbours: every paragraph but the last is followed by the end of
    its line and an empty line. *)
Definition one_blank_line_between (ps : list str) : str :=
  concat (List.map (fun p => p ++ [NL; NL]) (List.removelast ps))
  ++ List.last ps [].

(** The position after [pre] is the start of a line. *)
Definition line_start (pre : str) : bool := at_bol true (last_of None pre).

(** The lines of a text: [s.split('\n')]. *)
Fixpoint lines_from (cur : str) (s : str) : list str :=
  match s with
  | [] => [cur]
  | c :: s' => if c =? NL then cur :: lines_from [] s'
               else lines_from (cur ++ [c]) s'
  end.

Definition lines (s : str) : list str := lines_from [] s.

Definition is_item_line (l : str) : bool := begins_with_list_prefix (lstrip l).

(** Some blank line has a list-item line before it and a list-item line
    after it. *)
Fixpoint blank_between (seen_item : bool) (ls : list str) : bool :=
  match ls with
  | [] => false
  | l :: ls' =>
      if blank l then
        (seen_item && existsb is_item_line ls') || blank_between seen_item ls'
      else blank_between (seen_item || is_item_line l) ls'
  end.

Definition spans_blank_line (block : str) : bool :=
  blank_between false (lines block).

(** The text of the worked example. *)
Definition example_text : str :=
  lit "1. Open the file" ++ [NL] ++ lit "2. Read line one" ++ [NL; NL]
  ++ lit "You've got this " ++ [8212] ++ lit " just open it!".

Definition example_steps : str :=
  lit "1. Open the file" ++ [NL] ++ lit "2. Read line one".

Definition example_encouragement : str :=
  lit "You've got this " ++ [8212] ++ lit " just open it!".

(** Truth value of what [re.match] and [re.search] return. *)
Definition found {A : Type} (o : option A) : bool :=
  match o with Some _ => true | None => false end.

(** The second line of the paragraph splitting, on the pieces. *)
Definition para (pieces : list str) : list str :=
  List.map strip (List.filter (fun p => truthy (strip p)) pieces).

(** Two paragraphs of prose, no list. *)
Definition two_paragraphs : str :=
  lit "Take a breath." ++ [NL; NL] ++ lit "Then begin.".

(** Three paragraphs of prose, no list; the breaks between them hold
    more than two newlines. *)
Definition three_paragraphs : str :=
  lit "Take a breath." ++ [NL; NL; NL] ++ lit "Pick one thing."
  ++ [NL; 32; NL] ++ lit "Then begin.".

(** Two numbered items with a blank line between them. *)
Definition spaced_list : str := lit "1. a" ++ [NL; NL] ++ lit "2. b".

(** A bulleted list and nothing else. *)
Definition only_a_list : str :=
  lit "- tidy the desk" ++ [NL] ++ lit "- open the book".

(** The definitions above, run. *)
Example prefix_numbered : begins_with_list_prefix (lit "2) call them") = true.
Proof. reflexivity. Qed.

Example prefix_bulleted : begins_with_list_prefix (lit "- call them") = true.
Proof. reflexivity. Qed.

Example prefix_two_digits : begins_with_list_prefix (lit "10. call") = false.
Proof. reflexivity. Qed.

Example prefix_no_space : begins_with_list_prefix (lit "-call them") = false.
Proof. reflexivity. Qed.

Example example_block_is_dense :
  option_map group0 (step_match_of example_text) = Some (example_steps ++ [NL])
  /\ spans_blank_line (example_steps ++ [NL]) = false.
Proof. split; vm_compute; reflexivity. Qed.

(** *** Inversion of [Matches] *)

Lemma forallb_same (f g : N -> bool) (l : str) :
  (forall c, f c = g c) -> forallb f l = forallb g l.
Proof.
  intros E. induction l as [|c l IH]; simpl; [reflexivity|].
  rewrite E, IH. reflexivity.
Qed.

Lemma set_inv ml items p u t :
  Matches ml (Set_ items) p u t -> exists c, u = [c] /\ in_set items c = true.
Proof. intros H. inversion H; subst. eauto. Qed.

Lemma bol_inv ml p u t :
  Matches ml Bol p u t -> u = [] /\ at_bol ml p = true.
Proof. intros H. inversion H; subst. auto. Qed.

Lemma eol_inv ml p u t :
  Matches ml Eol p u t -> u = [] /\ at_eol ml t = true.
Proof. intros H. inversion H; subst. auto. Qed.

Lemma seq_inv ml r1 r2 p u t :
  Matches ml (Seq r1 r2) p u t ->
  exists u1 u2, u = u1 ++ u2 /\ Matches ml r1 p u1 (u2 ++ t)
                /\ Matches ml r2 (last_of p u1) u2 t.
Proof. intros H. inversion H; subst. eauto. Qed.

Lemma alt_inv ml r1 r2 p u t :
  Matches ml (Alt r1 r2) p u t -> Matches ml r1 p u t \/ Matches ml r2 p u t.
Proof. intros H. inversion H; subst; auto. Qed.

Lemma plus_inv ml r p u t :
  Matches ml (Plus r) p u t ->
  exists u1 u2, u = u1 ++ u2 /\ Matches ml r p u1 (u2 ++ t)
                /\ Matches ml (Star r) (last_of p u1) u2 t.
Proof. intros H. inversion H; subst. eauto. Qed.

(** A repetition of a class accepts characters of the class only. *)
Lemma star_set_inv ml items p u t :
  Matches ml (Star (Set_ items)) p u t -> forallb (in_set items) u = true.
Proof.
  intros H. remember (Star (Set_ items)) as r eqn:Hr.
  induction H; try discriminate; [reflexivity|].
  inversion Hr; subst r. apply set_inv in H0 as (c & -> & Hc).
  simpl. rewrite Hc. auto.
Qed.

Lemma in_set_space c : in_set [Space] c = is_space c.
Proof. unfold in_set. simpl. apply orb_false_r. Qed.

Lemma in_set_dot c : in_set [Dot] c = negb (c =? NL).
Proof. unfold in_set. simpl. apply orb_false_r. Qed.

Lemma in_set_nl c : in_set [Chr NL] c = (c =? NL).
Proof. unfold in_set. simpl. apply orb_false_r. Qed.

Lemma in_set_digit c : in_set [Range (ch "1") (ch "9")] c = is_digit_1_9 c.
Proof. unfold in_set. simpl. apply orb_false_r. Qed.

Lemma in_set_dot_or_paren c :
  in_set [Chr (ch "."); Chr (ch ")")] c = is_dot_or_paren c.
Proof.
  unfold in_set, is_dot_or_paren. simpl. rewrite orb_false_r. reflexivity.
Qed.

Lemma in_set_bullet c :
  in_set [Chr (ch "*"); Chr (ch "-"); Chr (ch "+")] c = is_bullet c.
Proof.
  unfold in_set, is_bullet. simpl. rewrite orb_false_r, orb_assoc. reflexivity.
Qed.

Lemma star_space_inv ml p u t :
  Matches ml (Star (Set_ [Space])) p u t -> blank u = true.
Proof.
  intros H. apply star_set_inv in H. unfold blank.
  rewrite <- H. apply forallb_same. intros c. symmetry. apply in_set_space.
Qed.

Lemma plus_space_inv ml p u t :
  Matches ml (Plus (Set_ [Space])) p u t -> u <> [] /\ blank u = true.
Proof.
  intros H. apply plus_inv in H as (u1 & u2 & -> & H1 & H2).
  apply set_inv in H1 as (c & -> & Hc). apply star_space_inv in H2.
  rewrite in_set_space in Hc. simpl. rewrite Hc.
  split; [discriminate | exact H2].
Qed.

Lemma star_dot_inv ml p u t :
  Matches ml (Star (Set_ [Dot])) p u t -> no_newline u = true.
Proof.
  intros H. apply star_set_inv in H. unfold no_newline.
  rewrite <- H. apply forallb_same. intros c. symmetry. apply in_set_dot.
Qed.

Lemma marker_inv ml p u t :
  Matches ml marker p u t -> is_marker u = true.
Proof.
  intros H. apply alt_inv in H as [H|H].
  - apply seq_inv in H as (u1 & u2 & -> & H1 & H2).
    apply set_inv in H1 as (d & -> & Hd). apply set_inv in H2 as (c & -> & Hc).
    rewrite in_set_digit in Hd. rewrite in_set_dot_or_paren in Hc.
    simpl. rewrite Hd, Hc. reflexivity.
  - apply set_inv in H as (b & -> & Hb). rewrite in_set_bullet in Hb. exact Hb.
Qed.

(** A paragraph break is a newline, white space, and a newline. *)
Lemma paragraph_break_inv ml p u t :
  Matches ml paragraph_break p u t ->
  exists w, u = NL :: w ++ [NL] /\ blank w = true.
Proof.
  intros H. apply seq_inv in H as (u1 & u2 & -> & H1 & H2).
  apply seq_inv in H2 as (u3 & u4 & -> & H3 & H4).
  apply set_inv in H1 as (c & -> & Hc). apply set_inv in H4 as (d & -> & Hd).
  rewrite in_set_nl in Hc, Hd. apply N.eqb_eq in Hc, Hd. subst c d.
  apply star_space_inv in H3. exists u3. auto.
Qed.

(** One round of the step pattern is a list item. *)
Lemma step_line_inv ml p u t :
  Matches ml step_line p u t -> list_item u.
Proof.
  intros H. apply seq_inv in H as (w1 & u1 & -> & Hw1 & H).
  apply seq_inv in H as (mk & u2 & -> & Hmk & H).
  apply seq_inv in H as (w2 & u3 & -> & Hw2 & H).
  apply seq_inv in H as (body & term & -> & Hbody & Hterm).
  exists w1, mk, w2, body, term.
  apply star_space_inv in Hw1. apply marker_inv in Hmk.
  apply plus_space_inv in Hw2 as (Hne & Hw2). apply star_dot_inv in Hbody.
  repeat split; auto.
  apply alt_inv in Hterm as [Hterm|Hterm].
  - apply set_inv in Hterm as (c & -> & Hc). rewrite in_set_nl in Hc.
    apply N.eqb_eq in Hc. subst c. auto.
  - apply eol_inv in Hterm as (-> & _). auto.
Qed.

Lemma star_step_line_inv ml p u t :
  Matches ml (Star step_line) p u t ->
  exists items, Forall list_item items /\ u = concat items.
Proof.
  intros H. remember (Star step_line) as r eqn:Hr.
  induction H; try discriminate.
  - exists []. auto.
  - inversion Hr; subst r. destruct (IHMatches2 eq_refl) as (items & Hi & ->).
    exists (u :: items). split; [|reflexivity].
    constructor; [eapply step_line_inv; eassumption | exact Hi].
Qed.

(** What the step pattern accepts: it starts at the start of a line and
    is one list item or more, one after the other. *)
Lemma step_pattern_inv p u t :
  Matches true step_pattern p u t ->
  at_bol true p = true
  /\ exists items, items <> [] /\ Forall list_item items /\ u = concat items.
Proof.
  intros H. apply seq_inv in H as (u0 & u1 & -> & H0 & H).
  apply bol_inv in H0 as (-> & Hp). split; [exact Hp|]. simpl in *.
  apply plus_inv in H as (x & v & -> & Hx & Hv).
  apply step_line_inv in Hx.
  apply star_step_line_inv in Hv as (items & Hi & ->).
  exists (x :: items). repeat split; [discriminate | constructor; assumption].
Qed.

Lemma list_item_not_blank (x : str) : list_item x -> blank x = false.
Proof.
  intros (w1 & mk & w2 & body & term & -> & _ & Hmk & _).
  rewrite blank_app. destruct (blank w1); [simpl | reflexivity].
  assert (Hm : blank mk = false).
  { destruct mk as [|a [|b [|c mk]]]; simpl in Hmk; try discriminate.
    - unfold is_bullet in Hmk. simpl. rewrite andb_true_r.
      repeat (apply orb_true_iff in Hmk as [Hmk|Hmk]);
        apply N.eqb_eq in Hmk; subst a; reflexivity.
    - apply andb_true_iff in Hmk as [Hd _]. unfold is_digit_1_9 in Hd.
      apply andb_true_iff in Hd as [H1 H9].
      apply N.leb_le in H1, H9. change (ch "1") with 49 in H1.
      change (ch "9") with 57 in H9. simpl. unfold is_space.
      repeat match goal with
             | |- context [(?x <=? ?y)] =>
                 destruct (N.leb_spec x y); try lia
             | |- context [(?x =? ?y)] =>
                 destruct (N.eqb_spec x y); try lia
             end; reflexivity. }
  rewrite blank_app, Hm. reflexivity.
Qed.

Lemma items_not_blank (items : list str) :
  items <> [] -> Forall list_item items -> blank (concat items) = false.
Proof.
  intros Hne Hall. destruct items as [|x items]; [congruence|].
  inversion Hall; subst. simpl. rewrite blank_app.
  rewrite (list_item_not_blank x); auto.
Qed.

(** *** The matcher on [item_prefix] *)

Local Arguments in_set : simpl never.
Local Arguments is_space : simpl never.

Lemma star_some {A : Type} m n p s (k : cont (A:=A)) :
  (forall p' s', k p' s' <> None) -> star m n p s k <> None.
Proof.
  intros Hk. destruct n; simpl; [apply Hk|].
  destruct (m p s _); [discriminate | apply Hk].
Qed.

(** On a text that does not start with white space, [re.match] accepts
    [item_prefix] exactly when the text begins with a list-item
    prefix. *)
Lemma item_prefix_spec (p : str) :
  head_ok p = true ->
  found (match_ false item_prefix p) = begins_with_list_prefix p.
Proof.
  intros Hp. unfold match_, match_here.
  set (k0 := fun (_ : option N) (rest : str) => Some rest).
  assert (Hstar : forall n q s,
             star (rmatch false (Set_ [Space])) n q s k0 <> None).
  { intros. apply star_some. discriminate. }
  assert (E : found (rmatch false item_prefix None p k0)
              = begins_with_list_prefix p).
  { destruct p as [|a p]; [reflexivity|]. simpl in Hp.
    apply negb_true_iff in Hp.
    unfold item_prefix, marker. cbn [rmatch star length at_bol].
    rewrite in_set_space, Hp, in_set_digit, in_set_bullet.
    destruct p as [|b p].
    { destruct (is_digit_1_9 a), (is_bullet a); reflexivity. }
    rewrite in_set_dot_or_paren, in_set_space.
    cbn [begins_with_list_prefix].
    destruct p as [|c p].
    - destruct (is_digit_1_9 a), (is_dot_or_paren b), (is_bullet a),
        (is_space b); reflexivity.
    - rewrite in_set_space.
      pose proof (Hstar (length p) (Some c) p) as H1.
      pose proof (Hstar (length (c :: p)) (Some b) (c :: p)) as H2.
      destruct (star _ (length p) (Some c) p k0); [|congruence].
      destruct (star _ (length (c :: p)) (Some b) (c :: p) k0); [|congruence].
      destruct (is_digit_1_9 a), (is_dot_or_paren b), (is_bullet a),
        (is_space b), (is_space c); reflexivity. }
  destruct (rmatch false item_prefix None p k0); exact E.
Qed.

(** *** Paragraphs *)

Lemma search_break_length prev s m :
  search_from false paragraph_break prev [] s = Some m ->
  (length (after m) < length s)%nat.
Proof.
  intros H. apply search_from_sound in H as (sk & _ & Hs & Hm).
  apply paragraph_break_inv in Hm as (w & Hg & _).
  rewrite Hs, Hg, !length_app. simpl. lia.
Qed.

(** The fuel of [split] is enough: every paragraph break consumes a
    character, so any fuel from [length s] on gives the same pieces. *)
Lemma split_fuel (n1 : nat) : forall n2 prev s,
  (length s <= n1)%nat -> (length s <= n2)%nat ->
  split_from n1 paragraph_break prev s = split_from n2 paragraph_break prev s.
Proof.
  induction n1 as [|a IH]; intros n2 prev s H1 H2.
  - destruct s; [|simpl in H1; lia]. destruct n2; reflexivity.
  - destruct n2 as [|b].
    + destruct s; [|simpl in H2; lia]. reflexivity.
    + simpl.
      destruct (search_from false paragraph_break prev [] s) as [m|] eqn:E;
        [|reflexivity].
      apply search_break_length in E. f_equal. apply IH; lia.
Qed.

Lemma para_cons (x : str) (l : list str) :
  para (x :: l) = if truthy (strip x) then strip x :: para l else para l.
Proof. unfold para. simpl. destruct (truthy (strip x)); reflexivity. Qed.

Lemma truthy_true (s : str) : truthy s = true <-> s <> [].
Proof. destruct s; simpl; split; congruence. Qed.

(** Every paragraph is trimmed and not empty. *)
Lemma para_elems (pieces : list str) :
  Forall (fun p => trimmed p = true /\ p <> []) (para pieces).
Proof.
  induction pieces as [|x l IH]; [constructor|].
  rewrite para_cons. destruct (truthy (strip x)) eqn:E; [|exact IH].
  constructor; [|exact IH].
  split; [apply strip_trimmed | apply truthy_true, E].
Qed.

Lemma paragraphs_elems (raw : str) :
  Forall (fun p => trimmed p = true /\ p <> []) (paragraphs_of raw).
Proof. apply para_elems. Qed.

Lemma last_In (l : list str) (d : str) : l <> [] -> In (List.last l d) l.
Proof.
  induction l as [|x l IH]; [congruence|]. intros _.
  destruct l as [|y l]; [left; reflexivity|].
  right. apply IH. discriminate.
Qed.

Lemma last_paragraph_ok (raw : str) :
  paragraphs_of raw <> [] ->
  trimmed (List.last (paragraphs_of raw) []) = true
  /\ List.last (paragraphs_of raw) [] <> [].
Proof.
  intros H. pose proof (paragraphs_elems raw) as Hall.
  rewrite List.Forall_forall in Hall. apply Hall, last_In, H.
Qed.

Lemma not_blank_strip (s : str) : blank s = false -> truthy (strip s) = true.
Proof.
  intros H. apply truthy_true. intros E.
  apply strip_nil_blank in E. congruence.
Qed.

Lemma last_ok_not_blank (s : str) :
  s <> [] -> head_ok (rev s) = true -> blank s = false.
Proof.
  intros Hne Hlast. rewrite <- blank_rev.
  destruct (rev s) as [|c t] eqn:E.
  - apply (f_equal (@rev N)) in E. rewrite rev_involutive in E.
    simpl in E. congruence.
  - simpl in *. apply negb_true_iff in Hlast. rewrite Hlast. reflexivity.
Qed.

(** What follows a paragraph break in a text that ends with a character
    other than white space is not empty and ends with that character. *)
Lemma after_break_ok (pre w rest : str) :
  head_ok (rev (pre ++ (NL :: w ++ [NL]) ++ rest)) = true ->
  rest <> [] /\ head_ok (rev rest) = true.
Proof.
  intros Hl. destruct rest as [|d t].
  - rewrite app_nil_r, rev_app_distr in Hl.
    change (NL :: w ++ [NL]) with ((NL :: w) ++ [NL]) in Hl.
    rewrite rev_app_distr in Hl. simpl in Hl. discriminate.
  - split; [discriminate|].
    rewrite !rev_app_distr in Hl.
    eapply head_ok_prefix; [rewrite <- app_assoc in Hl; exact Hl|].
    apply rev_cons_not_nil.
Qed.

(** A text that ends with a character other than white space has a
    paragraph, whatever the character before it in the whole text. *)
Lemma para_split_tail (fuel : nat) : forall prev s,
  s <> [] -> head_ok (rev s) = true ->
  para (split_from fuel paragraph_break prev s) <> [].
Proof.
  induction fuel as [|n IH]; intros prev s Hne Hlast.
  - simpl. rewrite para_cons, not_blank_strip; [discriminate|].
    apply last_ok_not_blank; assumption.
  - simpl. destruct (search_from false paragraph_break prev [] s) as [m|] eqn:E.
    + rewrite para_cons.
      apply search_from_sound in E as (sk & _ & Hs & Hm).
      apply paragraph_break_inv in Hm as (w & Hg & _).
      assert (Hafter : after m <> [] /\ head_ok (rev (after m)) = true).
      { rewrite Hs, Hg in Hlast. eapply after_break_ok, Hlast. }
      destruct Hafter as [Ha1 Ha2].
      specialize (IH (last_of prev (before m ++ group0 m)) (after m) Ha1 Ha2).
      destruct (truthy (strip (before m))); [discriminate | exact IH].
    + rewrite para_cons, not_blank_strip; [discriminate|].
      apply last_ok_not_blank; assumption.
Qed.

(** A trimmed text with one paragraph is that paragraph. *)
Lemma paragraphs_single (raw p : str) :
  trimmed raw = true -> paragraphs_of raw = [p] -> p = raw.
Proof.
  intros Ht Hp. unfold paragraphs_of, split in Hp.
  change (List.map strip (List.filter (fun p0 => truthy (strip p0))
            (split_from (length raw) paragraph_break None raw)))
    with (para (split_from (length raw) paragraph_break None raw)) in Hp.
  destruct raw as [|c raw]; [discriminate|].
  pose proof Ht as Ht'. unfold trimmed in Ht'.
  apply andb_true_iff in Ht' as [Hh Hl].
  cbn [length split_from] in Hp.
  destruct (search_from false paragraph_break None [] (c :: raw)) as [m|] eqn:E.
  - exfalso. rewrite para_cons in Hp.
    apply search_from_sound in E as (sk & Hb & Hs & Hm).
    apply paragraph_break_inv in Hm as (w & Hg & _).
    simpl in Hb. subst sk.
    assert (Hbefore : truthy (strip (before m)) = true).
    { apply not_blank_strip. destruct (before m) as [|b t].
      - rewrite Hg in Hs. simpl in Hs. inversion Hs; subst c.
        simpl in Hh. discriminate.
      - simpl in Hs. inversion Hs; subst b. simpl in *.
        apply negb_true_iff in Hh. rewrite Hh. reflexivity. }
    rewrite Hbefore in Hp.
    assert (Hafter : after m <> [] /\ head_ok (rev (after m)) = true).
    { rewrite Hs, Hg in Hl. eapply after_break_ok, Hl. }
    destruct Hafter as [Ha1 Ha2].
    pose proof (para_split_tail (length raw)
                  (last_of None (before m ++ group0 m)) (after m) Ha1 Ha2)
      as Hn.
    inversion Hp as [[Hp1 Hp2]]. congruence.
  - rewrite para_cons in Hp. simpl para in Hp.
    rewrite (trimmed_strip _ Ht) in Hp. simpl in Hp. congruence.
Qed.

Lemma paragraphs_nil : paragraphs_of [] = [].
Proof. reflexivity. Qed.

(** The step block found in a text, taken apart. *)
Lemma step_match_inv (raw : str) (m : match_object) :
  step_match_of raw = Some m ->
  raw = before m ++ group0 m ++ after m
  /\ line_start (before m) = true
  /\ exists items,
       items <> [] /\ Forall list_item items /\ group0 m = concat items.
Proof.
  intros H. apply search_sound in H as (Hs & Hm).
  apply step_pattern_inv in Hm as (Hb & Hitems). auto.
Qed.

Lemma step_block_not_blank (raw : str) (m : match_object) :
  step_match_of raw = Some m -> strip (group0 m) <> [].
Proof.
  intros H E. apply step_match_inv in H as (_ & _ & items & Hne & Hall & Hg).
  apply strip_nil_blank in E. rewrite Hg, items_not_blank in E; auto.
  discriminate.
Qed.

(** *** The rounds of the step pattern, as the matcher runs them

    [Matches] does not say which of [\n] and [$] ended a round.  The
    matcher tries [\n] first, and what follows a round never fails: a
    round ends with the newline of its line, or at the end of the text. *)

Section Rounds.
Context {A : Type}.

(** [.*(?:\n|$)]: the rest of the line, then its newline if what
    follows accepts that, else the end of the line. *)
Lemma line_end_run (k : cont (A:=A)) (x : A) : forall s n p,
  (length s <= n)%nat ->
  star (rmatch true (Set_ [Dot])) n p s
    (fun p' s' => rmatch true (Alt (Set_ [Chr NL]) Eol) p' s' k) = Some x ->
  exists body t,
    s = body ++ t /\ no_newline body = true
    /\ ((exists t', t = NL :: t' /\ k (Some NL) t' = Some x)
        \/ (t = [] /\ k (last_of p body) [] = Some x)
        \/ (exists t', t = NL :: t' /\ k (Some NL) t' = None
                       /\ k (last_of p body) t = Some x)).
Proof.
  induction s as [|c s IH]; intros n p Hn H.
  - exists [], []. split; [reflexivity|]. split; [reflexivity|].
    right; left. split; [reflexivity|]. change (k p [] = Some x).
    destruct n as [|n]; [exact H|].
    rewrite star_S, rmatch_set_nil in H. exact H.
  - destruct n as [|n]; [simpl in Hn; lia|].
    rewrite star_S, rmatch_set_cons, in_set_dot in H.
    destruct (c =? NL) eqn:Ec; cbn [negb] in H.
    + apply N.eqb_eq in Ec. subst c.
      rewrite rmatch_alt, rmatch_set_cons, rmatch_eol in H.
      change (in_set [Chr NL] NL) with true in H.
      change (at_eol true (NL :: s)) with true in H.
      exists [], (NL :: s). split; [reflexivity|]. split; [reflexivity|].
      destruct (k (Some NL) s) as [y|] eqn:Ek.
      * left. exists s. split; [reflexivity|]. rewrite Ek. exact H.
      * right; right. exists s. auto.
    + assert (E : (length s <? length (c :: s))%nat = true)
        by (apply Nat.ltb_lt; simpl; lia).
      rewrite E in H.
      destruct (star _ n (Some c) s _) as [y|] eqn:Es.
      * inversion H; subst y.
        apply IH in Es as (body & t & -> & Hb & Hc); [|simpl in Hn; lia].
        exists (c :: body), t. split; [reflexivity|].
        split; [simpl; rewrite Ec; exact Hb|]. exact Hc.
      * rewrite rmatch_alt, rmatch_set_cons, in_set_nl, Ec, rmatch_eol in H.
        unfold at_eol in H. rewrite Ec in H. discriminate.
Qed.

(** One round of the step pattern, and where what follows it was
    entered. *)
Lemma step_line_run (k : cont (A:=A)) (x : A) p s :
  rmatch true step_line p s k = Some x ->
  exists w1 mk w2 body t q,
    s = w1 ++ mk ++ w2 ++ body ++ t
    /\ blank w1 = true /\ is_marker mk = true
    /\ w2 <> [] /\ blank w2 = true
    /\ no_newline body = true
    /\ ((exists t', t = NL :: t' /\ k (Some NL) t' = Some x)
        \/ (t = [] /\ k q [] = Some x)
        \/ (exists t', t = NL :: t' /\ k (Some NL) t' = None)).
Proof.
  unfold step_line. intros H.
  rewrite rmatch_seq in H. apply rmatch_sound in H as (w1 & t1 & -> & Hw1 & H).
  rewrite rmatch_seq in H. apply rmatch_sound in H as (mk & t2 & -> & Hmk & H).
  rewrite rmatch_seq in H. apply rmatch_sound in H as (w2 & t3 & -> & Hw2 & H).
  rewrite rmatch_seq, rmatch_star in H.
  apply line_end_run in H as (body & t & -> & Hb & Hc); [|apply le_n].
  apply star_space_inv in Hw1. apply marker_inv in Hmk.
  apply plus_space_inv in Hw2 as (Hne & Hw2).
  exists w1, mk, w2, body, t. eexists.
  split; [reflexivity|]. repeat (split; [assumption|]).
  destruct Hc as [Hc|[Hc|(t' & Ht & Hn & _)]]; [left; exact Hc | |].
  - right; left. exact Hc.
  - right; right. exists t'. auto.
Qed.
End Rounds.

Lemma run_of_items_list_items (items : list str) (t : str) :
  run_of_items items t -> Forall list_item items.
Proof.
  induction items as [|x items IH]; intros H; [constructor|].
  destruct H as [(w1 & mk & w2 & body & term & Hx & H1 & H2 & H3 & H4 & H5 & H6)
                 Hrest].
  constructor; [|apply IH, Hrest].
  exists w1, mk, w2, body, term. repeat (split; [assumption|]). tauto.
Qed.

(** A round followed by something that does not fail on a shorter text
    and returns the end of a run of items: a run of one item more. *)
Lemma round_then_rounds (k : cont (A:=str)) p s x :
  (forall p' s', (length s' < length s)%nat -> k p' s' <> None) ->
  (forall p' s' y, k p' s' = Some y ->
     exists items, s' = concat items ++ y /\ run_of_items items y) ->
  rmatch true step_line p s k = Some x ->
  exists items,
    items <> [] /\ s = concat items ++ x /\ run_of_items items x.
Proof.
  intros Hlive Hk H.
  apply step_line_run in H
    as (w1 & mk & w2 & body & t & q & Hs & H1 & H2 & H3 & H4 & H5 & Hc).
  destruct Hc as [(t' & -> & Hx)|[(-> & Hx)|(t' & -> & Hn)]].
  - apply Hk in Hx as (items & -> & Hrun).
    exists ((w1 ++ mk ++ w2 ++ body ++ [NL]) :: items).
    split; [discriminate|]. split.
    + rewrite Hs. simpl. rewrite <- !app_assoc. reflexivity.
    + split; [|exact Hrun].
      exists w1, mk, w2, body, [NL]. repeat (split; [auto|]). auto.
  - apply Hk in Hx as (items & Hnil & Hrun).
    exists ((w1 ++ mk ++ w2 ++ body ++ []) :: items).
    split; [discriminate|]. split.
    + rewrite Hs. simpl. rewrite <- !app_assoc, <- Hnil. reflexivity.
    + split; [|exact Hrun].
      exists w1, mk, w2, body, []. repeat (split; [auto|]). auto.
  - exfalso. apply (Hlive (Some NL) t'); [|exact Hn].
    rewrite Hs, !length_app. simpl. lia.
Qed.

(** The rounds after the first: a run of items up to what is left. *)
Lemma rounds_run : forall n p s x,
  star (rmatch true step_line) n p s (fun _ rest => Some rest) = Some x ->
  exists items, s = concat items ++ x /\ run_of_items items x.
Proof.
  induction n as [|n IH]; intros p s x H.
  - inversion H; subst x. exists []. split; [reflexivity | exact I].
  - rewrite star_S in H.
    destruct (rmatch true step_line p s _) as [y|] eqn:E.
    + inversion H; subst y.
      apply round_then_rounds in E as (items & _ & Hs & Hrun); [eauto | |].
      * intros p' s' Hlen. apply Nat.ltb_lt in Hlen. rewrite Hlen.
        apply star_falls_back. discriminate.
      * intros p' s' y Hy.
        destruct (length s' <? length s)%nat; [|discriminate].
        apply IH in Hy. exact Hy.
    + inversion H; subst x. exists []. split; [reflexivity | exact I].
Qed.

(** What the matcher returns for the step pattern at a position. *)
Lemma step_pattern_run p s x :
  rmatch true step_pattern p s (fun _ rest => Some rest) = Some x ->
  at_bol true p = true
  /\ exists items,
       items <> [] /\ s = concat items ++ x /\ run_of_items items x.
Proof.
  unfold step_pattern. rewrite rmatch_seq, rmatch_bol. intros H.
  destruct (at_bol true p); [|discriminate]. split; [reflexivity|].
  rewrite rmatch_plus in H. apply round_then_rounds in H; [exact H | |].
  - intros p' s' _. apply star_falls_back. discriminate.
  - intros p' s' y Hy. apply rounds_run in Hy. exact Hy.
Qed.

(** The step block found in a text: a run of items, each to the end of
    its line. *)
Lemma step_match_run (raw : str) (m : match_object) :
  step_match_of raw = Some m ->
  raw = before m ++ group0 m ++ after m
  /\ line_start (before m) = true
  /\ exists items,
       items <> [] /\ group0 m = concat items
       /\ run_of_items items (after m).
Proof.
  intros H. unfold step_match_of, search in H.
  apply search_from_position in H as (skipped & here & -> & H).
  unfold match_here in H.
  destruct (rmatch MULTILINE step_pattern _ here _) as [rest|] eqn:E;
    [|discriminate].
  inversion H; subst m; clear H. cbn [before group0 after].
  apply step_pattern_run in E as (Hb & items & Hne & -> & Hrun).
  rewrite firstn_suffix. repeat split; auto.
  exists items. auto.
Qed.

Lemma join_one_blank_line (l : list str) :
  join [NL; NL] l = one_blank_line_between l.
Proof.
  unfold one_blank_line_between.
  induction l as [|x [|y l] IH]; [reflexivity | reflexivity |].
  change (join [NL; NL] (x :: y :: l))
    with (x ++ [NL; NL] ++ join [NL; NL] (y :: l)).
  rewrite IH.
  change (List.removelast (x :: y :: l))
    with (x :: List.removelast (y :: l)).
  change (List.last (x :: y :: l) []) with (List.last (y :: l) []).
  simpl map. simpl concat. rewrite <- !app_assoc. reflexivity.
Qed.

(** *** The claims on the decomposer *)

(** C1. When the step pattern finds a match and the text has more than
    one paragraph, [steps] is the matched block stripped, and
    [encouragement] is the last paragraph unless that paragraph begins
    with a list-item prefix (a digit 1-9 and [.] or [)], or one of [*],
    [-], [+], then white space), in which case it is the fixed sentence
    "Focus on that first step, you can do it!".  On the worked example
    the two numbered lines are the steps and the closing sentence is the
    encouragement. *)
Theorem C1_step_block_and_last_paragraph :
  (forall (raw : str) (m : match_object),
      step_match_of raw = Some m ->
      (1 < length (paragraphs_of raw))%nat ->
      let last_paragraph := List.last (paragraphs_of raw) [] in
      steps (parse_response raw) = strip (group0 m)
      /\ encouragement (parse_response raw)
         = if begins_with_list_prefix last_paragraph
           then lit "Focus on that first step, you can do it!"
           else last_paragraph)
  /\ parse_response example_text
     = Decomposition example_steps example_encouragement.
Proof.
  split; [|vm_compute; reflexivity].
  intros raw m Hm Hlen last_paragraph. unfold parse_response.
  rewrite Hm. apply Nat.ltb_lt in Hlen. rewrite Hlen.
  cbn [steps encouragement]. split; [reflexivity|].
  fold last_paragraph.
  assert (Hhead : head_ok last_paragraph = true).
  { destruct (last_paragraph_ok raw) as [Ht _].
    - intros E. rewrite E in Hlen. discriminate.
    - unfold trimmed in Ht. apply andb_true_iff in Ht as [Ht _]. exact Ht. }
  rewrite <- (item_prefix_spec _ Hhead).
  destruct (match_ false item_prefix last_paragraph); reflexivity.
Qed.

Lemma C1_witness :
  steps (parse_response example_text) = example_steps
  /\ encouragement (parse_response example_text) = example_encouragement.
Proof.
  pose proof (proj1 C1_step_block_and_last_paragraph example_text
                (MatchObject [] (example_steps ++ [NL])
                   ([NL] ++ example_encouragement))) as H.
  cbv zeta in H.
  destruct H as [H1 H2]; [vm_compute; reflexivity | vm_compute; lia |].
  split; [rewrite H1 | rewrite H2]; vm_compute; reflexivity.
Defined.

(** C2. When no step block is found and the text has two paragraphs or
    more, [steps] is every paragraph but the last, each trimmed, one
    after the other with one blank line between two neighbours (each but
    the last of them is followed by two newlines and nothing else), and
    [encouragement] is the last paragraph. *)
Theorem C2_paragraphs_without_step_block :
  forall raw : str,
    step_match_of raw = None ->
    (2 <= length (paragraphs_of raw))%nat ->
    steps (parse_response raw)
    = one_blank_line_between (List.removelast (paragraphs_of raw))
    /\ encouragement (parse_response raw) = List.last (paragraphs_of raw) []
    /\ Forall (fun p => trimmed p = true /\ p <> []) (paragraphs_of raw).
Proof.
  intros raw Hm Hlen. unfold parse_response. rewrite Hm.
  assert (E : (1 <? length (paragraphs_of raw))%nat = true)
    by (apply Nat.ltb_lt; lia).
  rewrite E. cbn [steps encouragement].
  split; [apply join_one_blank_line|].
  split; [reflexivity | apply paragraphs_elems].
Qed.

Lemma C2_witness :
  steps (parse_response three_paragraphs)
  = lit "Take a breath." ++ [NL; NL] ++ lit "Pick one thing."
  /\ encouragement (parse_response three_paragraphs) = lit "Then begin.".
Proof.
  destruct (C2_paragraphs_without_step_block three_paragraphs)
    as (H1 & H2 & _); [vm_compute; reflexivity | vm_compute; lia |].
  split; [rewrite H1 | rewrite H2]; vm_compute; reflexivity.
Defined.

(** C3, as the code has it.  The step block starts at the start of a
    line and is one list item or more, one after the other; a list item
    is optional white space, a marker, white space, the rest of the
    line and its terminator, which is missing only where the text ends
    with the item.  The white space of an item may hold newlines, so
    blank lines can lie inside the block, before the marker of an item
    or right after it. *)
Theorem C3_step_block_is_a_run_of_items :
  forall (raw : str) (m : match_object),
    step_match_of raw = Some m ->
    raw = before m ++ group0 m ++ after m
    /\ line_start (before m) = true
    /\ exists items,
         items <> [] /\ Forall list_item items /\ group0 m = concat items
         /\ run_of_items items (after m).
Proof.
  intros raw m H. apply step_match_run in H as (H1 & H2 & items & H3 & H4 & H5).
  repeat split; [exact H1 | exact H2 |].
  exists items. repeat split; auto.
  eapply run_of_items_list_items, H5.
Qed.

Lemma C3_witness :
  exists items,
    items <> [] /\ example_steps ++ [NL] = concat items
    /\ run_of_items items ([NL] ++ example_encouragement).
Proof.
  destruct (C3_step_block_is_a_run_of_items example_text
              (MatchObject [] (example_steps ++ [NL])
                 ([NL] ++ example_encouragement)))
    as (_ & _ & items & H1 & _ & H2 & H3); [vm_compute; reflexivity|].
  exists items. auto.
Defined.

(** C3, as stated, fails: the block found in two numbered items
    separated by a blank line is the whole text, blank line included. *)
Lemma C3_counterexample :
  step_match_of spaced_list = Some (MatchObject [] spaced_list [])
  /\ spans_blank_line spaced_list = true.
Proof. split; vm_compute; reflexivity. Qed.

(** C4, as stated, fails on the empty text: [steps] is empty. *)
Lemma C4_counterexample :
  ~ (steps (parse_response []) <> []
     /\ encouragement (parse_response []) <> []).
Proof. intros [H _]. apply H. reflexivity. Qed.

Lemma join_cons_nil (sep x : str) (l : list str) :
  join sep (x :: l) = [] -> x = [].
Proof.
  destruct l; simpl; [auto|]. intros E. apply app_eq_nil in E. tauto.
Qed.

(** C4, as the code has it.  The encouragement is never empty, and the
    steps are empty for the empty text only; a completion made of white
    space is trimmed to the empty text before it is parsed, and gets
    empty steps. *)
Theorem C4_fields_empty_only_on_empty_text :
  (forall raw : str,
      encouragement (parse_response raw) <> []
      /\ (steps (parse_response raw) = [] <-> raw = []))
  /\ (forall content : str,
        blank content = true ->
        steps (parse_response (strip content)) = []).
Proof.
  split.
  - intros raw. unfold parse_response.
    pose proof (paragraphs_elems raw) as Hall.
    pose proof (last_paragraph_ok raw) as Hlast.
    assert (Hraw : paragraphs_of raw <> [] -> raw <> []).
    { intros H ->. apply H, paragraphs_nil. }
    destruct (paragraphs_of raw) as [|p1 [|p2 ps]] eqn:Hps.
    + destruct (step_match_of raw); cbn [length Nat.ltb Nat.leb Nat.eqb
        steps encouragement]; (split; [discriminate | tauto]).
    + assert (raw <> []) by (apply Hraw; discriminate).
      destruct (step_match_of raw); cbn [length Nat.ltb Nat.leb Nat.eqb
        steps encouragement].
      * split; [discriminate | tauto].
      * split; [assumption|]. split; [discriminate | tauto].
    + assert (raw <> []) by (apply Hraw; discriminate).
      destruct Hlast as [_ Hlast]; [discriminate|].
      destruct (step_match_of raw) as [m|] eqn:Hm;
        cbn [length Nat.ltb Nat.leb Nat.eqb steps encouragement].
      * split.
        -- destruct (match_ false item_prefix _); [discriminate | exact Hlast].
        -- split; [|tauto]. intros E.
           exfalso. eapply step_block_not_blank; eassumption.
      * split; [exact Hlast|]. split; [|tauto].
        inversion Hall as [|? ? [_ Hp1] _]; subst.
        change (List.removelast (p1 :: p2 :: ps))
          with (p1 :: List.removelast (p2 :: ps)).
        intros E. apply join_cons_nil in E. congruence.
  - intros content Hb. rewrite (strip_blank _ Hb). reflexivity.
Qed.

Lemma C4_witness :
  steps (parse_response (strip (lit "   "))) = []
  /\ (steps (parse_response []) = [] <-> @nil N = []).
Proof.
  split.
  - apply (proj2 C4_fields_empty_only_on_empty_text). vm_compute. reflexivity.
  - apply (proj1 C4_fields_empty_only_on_empty_text []).
Defined.

(** C5. When the text has no paragraph, as the empty text has, [steps]
    is the text itself and [encouragement] is the fixed sentence
    "Remember to take it one step at a time.". *)
Theorem C5_no_paragraph :
  (forall raw : str,
      paragraphs_of raw = [] ->
      parse_response raw
      = Decomposition raw (lit "Remember to take it one step at a time."))
  /\ paragraphs_of [] = []
  /\ parse_response []
     = Decomposition [] (lit "Remember to take it one step at a time.").
Proof.
  split; [|split; reflexivity].
  intros raw H. unfold parse_response. rewrite H.
  destruct (step_match_of raw); reflexivity.
Qed.

Lemma C5_witness :
  parse_response [9; 32]
  = Decomposition [9; 32] (lit "Remember to take it one step at a time.").
Proof.
  apply (proj1 C5_no_paragraph). vm_compute. reflexivity.
Defined.

(** C6. When the trimmed text has exactly one paragraph: with a step
    block found, [steps] is the whole text and [encouragement] is "Just
    taking the first step is progress!"; with none, [steps] is "No
    specific steps identified." and [encouragement] is the paragraph. *)
Theorem C6_single_paragraph :
  forall raw p : str,
    trimmed raw = true ->
    paragraphs_of raw = [p] ->
    (step_match_of raw <> None ->
     parse_response raw
     = Decomposition raw (lit "Just taking the first step is progress!"))
    /\ (step_match_of raw = None ->
        parse_response raw
        = Decomposition (lit "No specific steps identified.") p).
Proof.
  intros raw p Ht Hp. pose proof (paragraphs_single raw p Ht Hp) as ->.
  unfold parse_response. rewrite Hp.
  destruct (step_match_of raw); split; intros H;
    try congruence; reflexivity.
Qed.

Lemma C6_witness :
  parse_response only_a_list
  = Decomposition only_a_list (lit "Just taking the first step is progress!")
  /\ parse_response (lit "hello")
     = Decomposition (lit "No specific steps identified.") (lit "hello").
Proof.
  split.
  - apply (C6_single_paragraph only_a_list only_a_list);
      vm_compute; [reflexivity | reflexivity | discriminate].
  - apply (C6_single_paragraph (lit "hello") (lit "hello"));
      vm_compute; reflexivity.
Defined.

(** The text that [get_ai_decomposition] parses is trimmed. *)
Lemma get_ai_decomposition_parses_trimmed missing create task d :
  get_ai_decomposition missing create task = Some d ->
  exists content,
    create task = Some content
    /\ trimmed (strip content) = true
    /\ d = parse_response (strip content).
Proof.
  unfold get_ai_decomposition. destruct missing; [discriminate|].
  destruct (create task) as [content|]; [|discriminate].
  intros H. inversion H; subst d. exists content.
  split; [reflexivity | split; [apply strip_trimmed | reflexivity]].
Qed.

End DecomposerFacts.

(** ** The credential store: outcomes, connections, returned fields *)

Module AuthFacts.
Import Auth.
Local Open Scope string_scope.
Local Open Scope py_scope.

(** No coming call of the storage layer fails. *)
Definition healthy (w : world) : bool := forallb negb (faults w).

(** A user with this username or this email is stored. *)
Definition already_stored (u e : string) (w : world) : Prop :=
  exists row, In row (committed w) /\ (username row = u \/ email row = e).

(** The texts bind and encode: UTF-8 encodes them. *)
Definition encodes {bcrypt : Bcrypt} (s : string) : bool :=
  match utf8 s with Some _ => true | None => false end.

(** The id fits the 64 bits of an SQLite integer. *)
Definition fits_int64 (z : Z) : bool := ((- 2 ^ 63 <=? z) && (z <? 2 ^ 63))%Z.

(** A stand-in for the codec and for bcrypt 5 on which the operations
    can be run: every text encodes to itself; the hash is the salt, of
    four characters, followed by the password; a password of more than
    72 bytes is refused. *)
#[local] Instance toy_bcrypt : Bcrypt := {|
  utf8 s := Some s;
  hashpw password s :=
    if (72 <? String.length password)%nat then None
    else Some (s ++ password);
  checkpw password h :=
    if (72 <? String.length password)%nat then None
    else Some (String.eqb h (String.substring 0 4 h ++ password))
|}.

Definition empty_world : world :=
  World [] [] 0 [] "2024-01-01 10:00:00" "s4lt".

(** The store after [register_user("ada", "ada@example.org", "pw")] and
    [update_openai_api_key("ada", "sk-live-123")]. *)
Definition world_with_key : world :=
  snd (update_openai_api_key "ada" "sk-live-123"
         (snd (register_user "ada" "ada@example.org" "pw" empty_world))).

(** The empty store, where the third call of the storage layer fails. *)
Definition failing_world : world :=
  World [] [] 0 [false; false; true] "2024-01-01 10:00:00" "s4lt".

(** The empty store, where the call of the storage layer that follows
    [connect] fails. *)
Definition failing_statement : world :=
  World [] [] 0 [false; true] "2024-01-01 10:00:00" "s4lt".

(** The store that holds ada, where [connect] fails. *)
Definition unreachable_world : world :=
  World (committed world_with_key) (committed world_with_key) 0 [true]
        "2024-01-01 10:00:00" "s4lt".

(** A password of 73 characters. *)
Definition long_password : string :=
  string_of_list_ascii (List.repeat "a"%char 73).

Ltac run :=
  unfold register_user, login_user, get_user_by_id, update_openai_api_key,
    get_openai_api_key, try_except, bind, connect, execute_select,
    execute_insert, execute_update, commit, close, storage_call,
    hash_password, verify_password, bind_text, bind_int, str_encode,
    gensalt, datetime_now, ret, raise;
  cbn [faults committed session open_connections now salt fst snd].

Ltac no_fault f H :=
  destruct f as [|[|] f]; cbn [forallb negb andb] in H; try discriminate H;
  cbn [faults committed session open_connections now salt fst snd].

Section Store.
Context {bcrypt : Bcrypt}.

Lemma fetchone_none (columns : user -> list value) cond rows :
  fetchone (List.map columns (List.filter cond rows)) = None
  <-> existsb cond rows = false.
Proof.
  induction rows as [|r rows IH]; simpl; [tauto|].
  destruct (cond r); simpl; [split; discriminate | exact IH].
Qed.

Lemma conflicts_spec u e row :
  conflicts u e row = true <-> username row = u \/ email row = e.
Proof.
  unfold conflicts. rewrite orb_true_iff, !String.eqb_eq. tauto.
Qed.

Lemma already_stored_spec u e w :
  already_stored u e w <-> existsb (conflicts u e) (committed w) = true.
Proof.
  unfold already_stored. rewrite existsb_exists.
  split; intros (row & Hin & H); exists row; (split; [exact Hin|]);
    apply conflicts_spec; exact H.
Qed.

Lemma encodes_some s : encodes s = true -> exists b, utf8 s = Some b.
Proof. unfold encodes. destruct (utf8 s); [eauto | discriminate]. Qed.



(** When bcrypt raises on the password, the login of a stored username
    is caught by [except]. *)
Lemma login_check_raises w known password b row rest :
  healthy w = true ->
  encodes known = true ->
  utf8 password = Some b ->
  List.filter (has_username known) (committed w) = row :: rest ->
  checkpw b (password_hash row) = None ->
  fst (login_user known password w) = Return (false, Message "Login failed").
Proof.
  intros Hw Ek Ep Hk Hv. apply encodes_some in Ek as (bk & Ek).
  destruct w as [c s o f n sa]. cbn in Hk, Hw. run. rewrite Ek.
  no_fault f Hw; [|no_fault f Hw]; cbn; rewrite Hk; cbn; rewrite Ep; cbn;
    rewrite Hv; reflexivity.
Qed.

(** Where nothing fails, registration is refused exactly when the
    username or the email is stored. *)
Lemma register_refused w u e password :
  healthy w = true ->
  encodes u = true -> encodes e = true ->
  existsb (conflicts u e) (committed w) = true ->
  register_user u e password w
  = (Return (false, "Username or email already exists"),
     World (committed w) (committed w) (open_connections w)
           (List.skipn 2 (faults w)) (now w) (salt w)).
Proof.
  intros Hw Eu Ee Hex.
  apply encodes_some in Eu as (bu & Eu). apply encodes_some in Ee as (be & Ee).
  destruct w as [c s o f n sa]. cbn in Hw, Hex. run. rewrite Eu, Ee.
  assert (Hrows : fetchone (List.map select_star
                    (List.filter (conflicts u e) c)) <> None).
  { rewrite fetchone_none. congruence. }
  no_fault f Hw; [|no_fault f Hw]; cbn;
    destruct (fetchone _); try congruence; reflexivity.
Qed.

Lemma register_accepted w u e password b h :
  healthy w = true ->
  encodes u = true -> encodes e = true ->
  existsb (conflicts u e) (committed w) = false ->
  utf8 password = Some b ->
  hashpw b (salt w) = Some h ->
  register_user u e password w
  = (Return (true, "Registration successful"),
     let rows :=
       (committed w
        ++ [User (next_id (committed w)) u e h None (now w) None])%list in
     World rows rows (open_connections w) (List.skipn 4 (faults w))
           (now w) (salt w)).
Proof.
  intros Hw Eu Ee Hex Ep Hh.
  apply encodes_some in Eu as (bu & Eu). apply encodes_some in Ee as (be & Ee).
  destruct w as [c s o f n sa]. cbn in Hw, Hex, Hh. run. rewrite Eu, Ee, Ep.
  assert (Hrows : fetchone (List.map select_star
                    (List.filter (conflicts u e) c)) = None).
  { rewrite fetchone_none. exact Hex. }
  no_fault f Hw; [|no_fault f Hw; [|no_fault f Hw; [|no_fault f Hw]]];
    cbn; rewrite Hrows; cbn; rewrite Hh; cbn; rewrite Hex; reflexivity.
Qed.

(** Where the storage layer does not fail and no such user is stored,
    a password that the codec or bcrypt refuses ends the registration
    in [except]: nothing is stored. *)
Lemma register_hash_raises w u e password :
  healthy w = true ->
  encodes u = true -> encodes e = true ->
  existsb (conflicts u e) (committed w) = false ->
  match utf8 password with
  | Some b => hashpw b (salt w) = None
  | None => True
  end ->
  fst (register_user u e password w) = Return (false, "Registration failed")
  /\ committed (snd (register_user u e password w)) = committed w.
Proof.
  intros Hw Eu Ee Hex Hh.
  apply encodes_some in Eu as (bu & Eu). apply encodes_some in Ee as (be & Ee).
  destruct w as [c s o f n sa]. cbn in Hw, Hex, Hh. run. rewrite Eu, Ee.
  assert (Hrows : fetchone (List.map select_star
                    (List.filter (conflicts u e) c)) = None).
  { rewrite fetchone_none. exact Hex. }
  no_fault f Hw; [|no_fault f Hw]; cbn; rewrite Hrows; cbn;
    destruct (utf8 password) as [b|]; cbn; rewrite ?Hh; cbn; auto.
Qed.

(** Whatever the storage layer does, registration does not succeed on
    a username or an email that is stored. *)
Lemma register_stored_fails w u e password :
  existsb (conflicts u e) (committed w) = true ->
  exists message,
    fst (register_user u e password w) = Return (false, message).
Proof.
  intros Hex. destruct w as [c s o f n sa]. cbn in Hex. run.
  assert (Hrows : fetchone (List.map select_star
                    (List.filter (conflicts u e) c)) <> None).
  { rewrite fetchone_none. congruence. }
  destruct (utf8 u), (utf8 e);
    destruct f as [|[|] [|[|] f]]; cbn;
    try (destruct (fetchone _); [|congruence]); eexists; reflexivity.
Qed.

(** The three outcomes of [register_user], whatever the storage layer
    and bcrypt do: refused on a stored username or email, accepted with
    one new row committed, or failed and nothing committed. *)
Lemma register_outcomes w u e password :
  (fst (register_user u e password w)
   = Return (false, "Username or email already exists")
   /\ existsb (conflicts u e) (committed w) = true)
  \/ (fst (register_user u e password w)
      = Return (true, "Registration successful")
      /\ existsb (conflicts u e) (committed w) = false
      /\ exists b h,
           utf8 password = Some b /\ hashpw b (salt w) = Some h
           /\ committed (snd (register_user u e password w))
              = (committed w
                 ++ [User (next_id (committed w)) u e h None (now w)
                          None])%list)
  \/ (fst (register_user u e password w)
      = Return (false, "Registration failed")
      /\ committed (snd (register_user u e password w)) = committed w).
Proof.
  destruct w as [c s o f n sa]. run.
  destruct (existsb (conflicts u e) c) eqn:Hex.
  - assert (Hrows : fetchone (List.map select_star
                      (List.filter (conflicts u e) c)) <> None).
    { rewrite fetchone_none. congruence. }
    destruct (utf8 u), (utf8 e);
      destruct f as [|[|] [|[|] f]]; cbn;
      try (destruct (fetchone _); [|congruence]); auto.
  - assert (Hrows : fetchone (List.map select_star
                      (List.filter (conflicts u e) c)) = None).
    { rewrite fetchone_none. exact Hex. }
    destruct (utf8 u), (utf8 e), (utf8 password) as [b|];
      try destruct (hashpw b sa) as [h|] eqn:Hh;
      destruct f as [|[|] [|[|] [|[|] [|[|] f]]]]; cbn;
      rewrite ?Hrows; cbn; rewrite ?Hh; cbn; rewrite ?Hex; cbn; eauto 10.
Qed.

(** Every operation closes the connection it opened on the paths that
    do not go through [except]. *)
Lemma connections_closed_outside_except w :
  (forall u e password,
      fst (register_user u e password w)
      <> Return (false, "Registration failed") ->
      open_connections (snd (register_user u e password w))
      = open_connections w)
  /\ (forall u password,
        fst (login_user u password w)
        <> Return (false, Message "Login failed") ->
        open_connections (snd (login_user u password w))
        = open_connections w)
  /\ (forall i,
        healthy w = true -> fits_int64 i = true ->
        open_connections (snd (get_user_by_id i w)) = open_connections w)
  /\ (forall u k,
        fst (update_openai_api_key u k w)
        <> Return (false, "Failed to update API key") ->
        open_connections (snd (update_openai_api_key u k w))
        = open_connections w)
  /\ (forall u,
        healthy w = true -> encodes u = true ->
        open_connections (snd (get_openai_api_key u w))
        = open_connections w).
Proof.
  destruct w as [c s o f n sa]. repeat split.
  - intros u e password. run.
    destruct (utf8 u), (utf8 e), (utf8 password) as [b|];
      try destruct (hashpw b sa) as [h|] eqn:Hh;
      destruct f as [|[|] [|[|] [|[|] [|[|] f]]]]; cbn; try congruence;
      destruct (fetchone _); cbn; rewrite ?Hh; cbn; try congruence;
      destruct (existsb _ _); cbn; congruence.
  - intros u password. run.
    destruct (utf8 u), (utf8 password) as [b|];
      destruct f as [|[|] [|[|] [|[|] [|[|] f]]]]; cbn; try congruence;
      destruct (List.filter (has_username u) c) as [|row rows]; cbn;
      try congruence;
      destruct (checkpw b (password_hash row)) as [[|]|]; cbn; congruence.
  - intros i Hw Hi. unfold fits_int64 in Hi. cbn in Hw. run. rewrite Hi.
    no_fault f Hw; [|no_fault f Hw]; cbn;
      destruct (List.filter (has_id i) c) as [|row rows]; reflexivity.
  - intros u k. run.
    destruct (utf8 k), (utf8 u);
      destruct f as [|[|] [|[|] [|[|] f]]]; cbn; congruence.
  - intros u Hw Eu. apply encodes_some in Eu as (bu & Eu). cbn in Hw. run.
    rewrite Eu.
    no_fault f Hw; [|no_fault f Hw]; cbn;
      destruct (List.filter (has_username u) c) as [|row rows]; reflexivity.
Qed.

(** The dictionary of a row of [SELECT *]: its five keys, and what
    stands under [created_at] and [last_login]. *)
Lemma user_dict_of_row (row : user) (w : world) :
  exists d,
    user_dict (select_star row) w = (Return d, w)
    /\ dom d = {[ "id"; "username"; "email"; "created_at"; "last_login" ]}
    /\ d !! "created_at" = Some (nullable (openai_api_key row))
    /\ d !! "last_login" = Some (Text (created_at row)).
Proof.
  eexists. split; [reflexivity|]. split; [|split].
  - rewrite !dom_insert_L, dom_empty_L. set_solver.
  - reflexivity.
  - reflexivity.
Qed.

(** *** The claims on the credential store *)


(** C8, as the code has it.  [register_user] returns the failure
    "Username or email already exists" only when a user with that
    username or that email is stored, and succeeds only when none is,
    having committed one new row whose password column is the bcrypt
    hash of the encoded password with a fresh salt.  Where the storage
    layer does not fail and the username and the email encode, it
    returns that failure exactly when such a user is stored, and it
    succeeds when none is and bcrypt hashes the password.  After a
    registration that succeeded, a registration of the same username
    fails, whatever the storage layer does. *)
Theorem C8_register_fails_iff_already_stored :
  forall (w : world) (u e password : string),
    let result := fst (register_user u e password w) in
    let after := snd (register_user u e password w) in
    (result = Return (false, "Username or email already exists") ->
     already_stored u e w)
    /\ (result = Return (true, "Registration successful") ->
        ~ already_stored u e w
        /\ exists b h,
             utf8 password = Some b /\ hashpw b (salt w) = Some h
             /\ committed after
                = (committed w
                   ++ [User (next_id (committed w)) u e h None (now w)
                            None])%list)
    /\ (healthy w = true -> encodes u = true -> encodes e = true ->
        (result = Return (false, "Username or email already exists")
         <-> already_stored u e w)
        /\ (forall b h,
              ~ already_stored u e w ->
              utf8 password = Some b -> hashpw b (salt w) = Some h ->
              result = Return (true, "Registration successful")))
    /\ (forall (e2 password2 : string) (w2 : world),
          result = Return (true, "Registration successful") ->
          committed w2 = committed after ->
          exists message,
            fst (register_user u e2 password2 w2) = Return (false, message)).
Proof.
  intros w u e password result after.
  assert (Hexists : result = Return (false, "Username or email already exists")
                    -> already_stored u e w).
  { rewrite already_stored_spec. subst result.
    destruct (register_outcomes w u e password) as [H|[H|H]];
      [tauto | |]; destruct H as [H _]; rewrite H; discriminate. }
  assert (Hsuccess : result = Return (true, "Registration successful") ->
                     existsb (conflicts u e) (committed w) = false
                     /\ exists b h,
                          utf8 password = Some b
                          /\ hashpw b (salt w) = Some h
                          /\ committed after
                             = (committed w
                                ++ [User (next_id (committed w)) u e h None
                                         (now w) None])%list).
  { subst result after.
    destruct (register_outcomes w u e password) as [H|[H|H]];
      [| tauto |]; destruct H as [H _]; rewrite H; discriminate. }
  split; [exact Hexists|]. split; [|split].
  - intros H. apply Hsuccess in H as [H1 H2]. split; [|exact H2].
    rewrite already_stored_spec. congruence.
  - intros Hw Eu Ee. rewrite already_stored_spec. subst result.
    destruct (existsb (conflicts u e) (committed w)) eqn:E.
    + rewrite register_refused by assumption. cbn [fst].
      split; [tauto | intros b h Hn; exfalso; apply Hn;
              try apply already_stored_spec; congruence].
    + split.
      * split; [|discriminate]. intros H. apply Hexists in H.
        apply already_stored_spec in H. congruence.
      * intros b h _ Hb Hh.
        rewrite (register_accepted w u e password b h) by assumption.
        reflexivity.
  - intros e2 password2 w2 H Hc. apply Hsuccess in H as (_ & b & h & _ & _ & H).
    apply register_stored_fails. rewrite Hc, H, existsb_app. cbn.
    unfold conflicts at 2. cbn. rewrite String.eqb_refl. cbn.
    apply orb_true_r.
Qed.

End Store.



Lemma C8_witness :
  fst (register_user "ada" "ada@example.org" "pw" empty_world)
  = Return (true, "Registration successful")
  /\ fst (register_user "ada" "other@example.org" "pw2"
            (snd (register_user "ada" "ada@example.org" "pw" empty_world)))
     = Return (false, "Username or email already exists").
Proof.
  split.
  - destruct (C8_register_fails_iff_already_stored empty_world "ada"
                "ada@example.org" "pw") as (_ & _ & H & _).
    destruct H as [_ H]; [reflexivity | reflexivity | reflexivity |].
    apply (H "pw" "s4ltpw"); [|reflexivity|reflexivity].
    intros (row & Hin & _). exact Hin.
  - destruct (C8_register_fails_iff_already_stored
                (snd (register_user "ada" "ada@example.org" "pw" empty_world))
                "ada" "other@example.org" "pw2") as (_ & _ & H & _).
    destruct H as [H _]; [reflexivity | reflexivity | reflexivity |].
    apply H. eexists. split; [left; reflexivity | left; reflexivity].
Defined.

(** C8, as stated, fails.  With ada stored and a [connect] that fails,
    the registration of ada returns "Registration failed", not the
    already-exists failure.  With bob not stored and a storage layer
    that does not fail, the registration of bob with the password of 73
    characters, which bcrypt refuses, returns "Registration failed" and
    stores nothing. *)
Lemma C8_counterexample :
  (already_stored "ada" "ada@example.org" unreachable_world
   /\ fst (register_user "ada" "ada@example.org" "pw" unreachable_world)
      = Return (false, "Registration failed"))
  /\ (~ already_stored "bob" "bob@example.org" world_with_key
      /\ healthy world_with_key = true
      /\ fst (register_user "bob" "bob@example.org" long_password
                world_with_key)
         = Return (false, "Registration failed")
      /\ committed (snd (register_user "bob" "bob@example.org" long_password
                           world_with_key))
         = committed world_with_key).
Proof.
  split; [split|split; [|repeat split]].
  - eexists. split; [left; reflexivity | left; reflexivity].
  - reflexivity.
  - rewrite already_stored_spec. vm_compute. discriminate.
Qed.

(** An id that does not fit 64 bits raises while it is bound: the
    lookup returns [None] and leaves its connection open. *)
Example id_out_of_range :
  get_user_by_id (2 ^ 63) empty_world
  = (Return None, World [] [] 1 [] "2024-01-01 10:00:00" "s4lt").
Proof. reflexivity. Qed.

(** C9 fails on the paths through [except]: when the INSERT of
    [register_user] raises, the function returns "Registration failed"
    and the connection it opened stays open; so it is in the four other
    operations when the statement after [connect] raises. *)
Theorem C9_connection_left_open_on_error :
  register_user "ada" "ada@example.org" "pw" failing_world
  = (Return (false, "Registration failed"),
     World [] [] 1 [] "2024-01-01 10:00:00" "s4lt")
  /\ login_user "ada" "pw" failing_statement
     = (Return (false, Message "Login failed"),
        World [] [] 1 [] "2024-01-01 10:00:00" "s4lt")
  /\ get_user_by_id 1 failing_statement
     = (Return None, World [] [] 1 [] "2024-01-01 10:00:00" "s4lt")
  /\ update_openai_api_key "ada" "sk-live-123" failing_statement
     = (Return (false, "Failed to update API key"),
        World [] [] 1 [] "2024-01-01 10:00:00" "s4lt")
  /\ get_openai_api_key "ada" failing_statement
     = (Return Null, World [] [] 1 [] "2024-01-01 10:00:00" "s4lt").
Proof. repeat split. Qed.

(** C10 fails on the value under [created_at]: the fifth column of the
    row is [openai_api_key], so the dictionary that [login_user] and
    [get_user_by_id] return carries the API key of the user there, and
    the creation time under [last_login]. *)
Theorem C10_api_key_returned_as_created_at :
  match fst (login_user "ada" "pw" world_with_key) with
  | Return (true, Info d) =>
      d !! "created_at" = Some (Text "sk-live-123")
      /\ d !! "last_login" = Some (Text "2024-01-01 10:00:00")
  | _ => False
  end
  /\ match fst (get_user_by_id 1 world_with_key) with
     | Return (Some d) => d !! "created_at" = Some (Text "sk-live-123")
     | _ => False
     end.
Proof. split; vm_compute; auto. Qed.

End AuthFacts.
